(** * MAVLink attitude conversions (mavlink_conversions.h)

    A shallow embedding of the six conversion routines between
    quaternions, direction-cosine matrices and Euler angles, together
    with the properties their specification states.

    The C code computes on [float] and [double].  The embedding keeps
    the two types, the promotions and the narrowing stores apart in an
    arithmetic interface ([CArith]); every routine is written once over
    that interface, operation for operation and in the order of the C
    text.  What the routines test, which arm they take, what they read
    and write and which expression they store is proved for every
    interpretation of the interface, binary32 with its NaNs and signed
    zeros included: the tests are the interpretation's own.  Algebraic
    facts about the stored values (identities, round trips) are proved
    for the exact interpretation [RealArith], in which both types are
    the real numbers, conversions are the identity and the libm
    functions are the mathematical ones.  Rounding is abstracted away
    there, so those statements keep clear of the places where rounding
    decides an arm: the arcsine is used on [[-1, 1]] only, and the
    thresholds [tr > 0] and [|theta -+ PI/2| < 1e-3] are approached
    with a margin.

    [mavlink_dcm_to_quaternion] is embedded twice: over two separate
    arrays ([mem]), and over one address space ([heap]) in which its
    two pointer arguments may overlap; the first is shown to be the
    second when the arrays lie apart. *)

From Stdlib Require Import ZArith List Bool Reals Lra Lia Permutation RNsatz.
Import ListNotations.

Declare Scope flt_scope.
Declare Scope dbl_scope.
Delimit Scope flt_scope with flt.
Delimit Scope dbl_scope with dbl.

(** ** The arithmetic of the C program *)

Class CArith : Type := {
  float  : Type;                       (* C float  *)
  double : Type;                       (* C double *)
  (* conversions *)
  to_double : float -> double;         (* promotion, (double)x *)
  to_float  : double -> float;         (* narrowing on store, (float)x *)
  (* float arithmetic *)
  fadd : float -> float -> float;
  fsub : float -> float -> float;
  fmul : float -> float -> float;
  fdiv : float -> float -> float;
  fneg : float -> float;
  fltb : float -> float -> bool;       (* x < y *)
  fabsf  : float -> float;
  sqrtf  : float -> float;
  atan2f : float -> float -> float;
  flit_0    : float;                   (* 0.0f    *)
  flit_0_5  : float;                   (* 0.5f    *)
  flit_1    : float;                   (* 1.0f    *)
  flit_1em3 : float;                   (* 1.0e-3f *)
  (* double arithmetic *)
  dadd : double -> double -> double;
  dsub : double -> double -> double;
  dmul : double -> double -> double;
  ddiv : double -> double -> double;
  dneg : double -> double;
  dlit_2 : double;                     (* 2.0 *)
  c_cos  : double -> double;
  c_sin  : double -> double;
  c_asin : double -> double;
  M_PI_2 : double                      (* math.h, or ((float)asin(1)) *)
}.

Notation "x + y" := (fadd x y) : flt_scope.
Notation "x - y" := (fsub x y) : flt_scope.
Notation "x * y" := (fmul x y) : flt_scope.
Notation "x / y" := (fdiv x y) : flt_scope.
Notation "- x"   := (fneg x)   : flt_scope.
Notation "x <? y" := (fltb x y) : flt_scope.
Notation "x >? y" := (fltb y x) : flt_scope.

Notation "x + y" := (dadd x y) : dbl_scope.
Notation "x - y" := (dsub x y) : dbl_scope.
Notation "x * y" := (dmul x y) : dbl_scope.
Notation "x / y" := (ddiv x y) : dbl_scope.
Notation "- x"   := (dneg x)   : dbl_scope.

(** ** Arrays

    A C array is a map from subscripts to cells; its extent is enforced
    where a subscript is computed at run time (see [load_dcm] and
    [store_quaternion] below).  [a <[ n := v ]>] is the store
    [a[n] = v], [m <[ i , j := v ]>] the store [m[i][j] = v]. *)

Definition upd {V : Type} (a : Z -> V) (n : Z) (v : V) : Z -> V :=
  fun m => if Z.eqb m n then v else a m.

Definition upd2 {V : Type} (a : Z -> Z -> V) (i j : Z) (v : V) : Z -> Z -> V :=
  fun i' => if Z.eqb i' i then upd (a i') j v else a i'.

Notation "a <[ n := v ]>" := (upd a n v)
  (at level 1, left associativity, format "a <[ n  :=  v ]>").
Notation "a <[ i , j := v ]>" := (upd2 a i j v)
  (at level 1, left associativity, format "a <[ i ,  j  :=  v ]>").

(** Subscripting in statements about real-valued arrays: [a.[n]] is
    [a[n]] and [m.[i, j]] is [m[i][j]], with the subscripts read as
    integers. *)
Notation "a .[ n ]" := (a n%Z)
  (at level 1, left associativity, only parsing).
Notation "m .[ i , j ]" := (m i%Z j%Z)
  (at level 1, left associativity, only parsing).

(** Subscripts allowed by the declarations [float dcm[3][3]] and
    [float quaternion[4]]. *)
Definition in_dcm (i j : Z) : bool :=
  ((0 <=? i) && (i <? 3) && (0 <=? j) && (j <? 3))%Z.

Definition in_quaternion (n : Z) : bool := ((0 <=? n) && (n <? 4))%Z.

(** The three pointer results of [mavlink_dcm_to_euler]. *)
Record euler (V : Type) : Type := Euler { roll : V; pitch : V; yaw : V }.
Arguments Euler {V} _ _ _.
Arguments roll {V} _.
Arguments pitch {V} _.
Arguments yaw {V} _.

(** The arm of the [if / else if / else] of [mavlink_dcm_to_euler]. *)
Inductive euler_branch : Type :=
| GimbalPlus      (* fabsf(theta - (float)M_PI_2) < 1.0e-3f *)
| GimbalMinus     (* fabsf(theta + (float)M_PI_2) < 1.0e-3f *)
| Regular.

(** Memory accesses of [mavlink_dcm_to_quaternion], in program order. *)
Inductive access : Type :=
| LoadDcm (i j : Z)
| StoreQuaternion (n : Z).

Section Conversions.
Context {A : CArith}.

Local Open Scope Z_scope.

(** *** mavlink_quaternion_to_dcm *)
Definition mavlink_quaternion_to_dcm
    (quaternion : Z -> float) (dcm : Z -> Z -> float) : Z -> Z -> float :=
  let a := to_double (quaternion 0) in
  let b := to_double (quaternion 1) in
  let c := to_double (quaternion 2) in
  let d := to_double (quaternion 3) in
  let aSq := (a * a)%dbl in
  let bSq := (b * b)%dbl in
  let cSq := (c * c)%dbl in
  let dSq := (d * d)%dbl in
  let dcm := dcm <[0, 0 := to_float (aSq + bSq - cSq - dSq)%dbl]> in
  let dcm := dcm <[0, 1 := to_float (dlit_2 * (b * c - a * d))%dbl]> in
  let dcm := dcm <[0, 2 := to_float (dlit_2 * (a * c + b * d))%dbl]> in
  let dcm := dcm <[1, 0 := to_float (dlit_2 * (b * c + a * d))%dbl]> in
  let dcm := dcm <[1, 1 := to_float (aSq - bSq + cSq - dSq)%dbl]> in
  let dcm := dcm <[1, 2 := to_float (dlit_2 * (c * d - a * b))%dbl]> in
  let dcm := dcm <[2, 0 := to_float (dlit_2 * (b * d - a * c))%dbl]> in
  let dcm := dcm <[2, 1 := to_float (dlit_2 * (a * b + c * d))%dbl]> in
  let dcm := dcm <[2, 2 := to_float (aSq - bSq - cSq + dSq)%dbl]> in
  dcm.

(** *** mavlink_dcm_to_euler *)

(** [theta = asin(-dcm[2][0])], narrowed to [float]. *)
Definition dcm_theta (dcm : Z -> Z -> float) : float :=
  to_float (c_asin (to_double (- dcm 2 0)%flt)).

(** Which arm of the conditional runs. *)
Definition dcm_to_euler_branch (dcm : Z -> Z -> float) : euler_branch :=
  let theta := dcm_theta dcm in
  if (fabsf (theta - to_float M_PI_2) <? flit_1em3)%flt then GimbalPlus
  else if (fabsf (theta + to_float M_PI_2) <? flit_1em3)%flt then GimbalMinus
  else Regular.

Definition mavlink_dcm_to_euler (dcm : Z -> Z -> float) : euler float :=
  let theta := dcm_theta dcm in
  let '(phi, psi) :=
    match dcm_to_euler_branch dcm with
    | GimbalPlus =>
        let phi := flit_0 in
        let psi := (atan2f (dcm 1 2 - dcm 0 1) (dcm 0 2 + dcm 1 1) + phi)%flt in
        (phi, psi)
    | GimbalMinus =>
        let phi := flit_0 in
        let psi := atan2f (dcm 1 2 - dcm 0 1)%flt (dcm 0 2 + dcm 1 1 - phi)%flt in
        (phi, psi)
    | Regular =>
        let phi := atan2f (dcm 2 1) (dcm 2 2) in
        let psi := atan2f (dcm 1 0) (dcm 0 0) in
        (phi, psi)
    end in
  Euler phi theta psi.

(** *** mavlink_quaternion_to_euler: a local [dcm], then the two calls. *)
Definition mavlink_quaternion_to_euler
    (quaternion : Z -> float) (dcm_local : Z -> Z -> float) : euler float :=
  let dcm := mavlink_quaternion_to_dcm quaternion dcm_local in
  mavlink_dcm_to_euler dcm.

(** *** mavlink_euler_to_quaternion *)
Definition mavlink_euler_to_quaternion
    (roll pitch yaw : float) (quaternion : Z -> float) : Z -> float :=
  let cosPhi_2   := c_cos (to_double roll / dlit_2)%dbl in
  let sinPhi_2   := c_sin (to_double roll / dlit_2)%dbl in
  let cosTheta_2 := c_cos (to_double pitch / dlit_2)%dbl in
  let sinTheta_2 := c_sin (to_double pitch / dlit_2)%dbl in
  let cosPsi_2   := c_cos (to_double yaw / dlit_2)%dbl in
  let sinPsi_2   := c_sin (to_double yaw / dlit_2)%dbl in
  let quaternion := quaternion <[0 :=
    to_float (cosPhi_2 * cosTheta_2 * cosPsi_2 +
              sinPhi_2 * sinTheta_2 * sinPsi_2)%dbl]> in
  let quaternion := quaternion <[1 :=
    to_float (sinPhi_2 * cosTheta_2 * cosPsi_2 -
              cosPhi_2 * sinTheta_2 * sinPsi_2)%dbl]> in
  let quaternion := quaternion <[2 :=
    to_float (cosPhi_2 * sinTheta_2 * cosPsi_2 +
              sinPhi_2 * cosTheta_2 * sinPsi_2)%dbl]> in
  let quaternion := quaternion <[3 :=
    to_float (cosPhi_2 * cosTheta_2 * sinPsi_2 -
              sinPhi_2 * sinTheta_2 * cosPsi_2)%dbl]> in
  quaternion.

(** *** mavlink_euler_to_dcm *)
Definition mavlink_euler_to_dcm
    (roll pitch yaw : float) (dcm : Z -> Z -> float) : Z -> Z -> float :=
  let cosPhi := c_cos (to_double roll) in
  let sinPhi := c_sin (to_double roll) in
  let cosThe := c_cos (to_double pitch) in
  let sinThe := c_sin (to_double pitch) in
  let cosPsi := c_cos (to_double yaw) in
  let sinPsi := c_sin (to_double yaw) in
  let dcm := dcm <[0, 0 := to_float (cosThe * cosPsi)%dbl]> in
  let dcm := dcm <[0, 1 :=
    to_float (- cosPhi * sinPsi + sinPhi * sinThe * cosPsi)%dbl]> in
  let dcm := dcm <[0, 2 :=
    to_float (sinPhi * sinPsi + cosPhi * sinThe * cosPsi)%dbl]> in
  let dcm := dcm <[1, 0 := to_float (cosThe * sinPsi)%dbl]> in
  let dcm := dcm <[1, 1 :=
    to_float (cosPhi * cosPsi + sinPhi * sinThe * sinPsi)%dbl]> in
  let dcm := dcm <[1, 2 :=
    to_float (- sinPhi * cosPsi + cosPhi * sinThe * sinPsi)%dbl]> in
  let dcm := dcm <[2, 0 := to_float (- sinThe)%dbl]> in
  let dcm := dcm <[2, 1 := to_float (sinPhi * cosThe)%dbl]> in
  let dcm := dcm <[2, 2 := to_float (cosPhi * cosThe)%dbl]> in
  dcm.

(** *** mavlink_dcm_to_quaternion

    The only routine whose subscripts are computed at run time, and
    the only one that receives its input through a non-const
    parameter.  It is modelled over the two caller arrays as they sit
    in memory, the matrix and the quaternion being two distinct
    objects: every access is checked against the declared extent (an
    access outside it has no defined behaviour and stops the run with
    [None]) and is recorded, in program order, in [accesses]. *)

Record mem : Type := Mem {
  dcm        : Z -> Z -> float;     (* float dcm[3][3]     *)
  quaternion : Z -> float;          (* float quaternion[4] *)
  accesses   : list access          (* ghost: what was touched so far *)
}.

Definition M (X : Type) : Type := mem -> option (X * mem).

Definition ret {X : Type} (x : X) : M X := fun m => Some (x, m).

Definition bind {X Y : Type} (c : M X) (k : X -> M Y) : M Y :=
  fun m => match c m with
           | Some (x, m') => k x m'
           | None => None
           end.

(** [dcm[i][j]] as an rvalue. *)
Definition load_dcm (i j : Z) : M float :=
  fun m =>
    if in_dcm i j
    then Some (dcm m i j,
               Mem (dcm m) (quaternion m) (accesses m ++ [LoadDcm i j]))
    else None.

(** [quaternion[n] = v]. *)
Definition store_quaternion (n : Z) (v : float) : M unit :=
  fun m =>
    if in_quaternion n
    then Some (tt, Mem (dcm m) (quaternion m) <[n := v]>
                       (accesses m ++ [StoreQuaternion n]))
    else None.

(** [for (i = lo; i < hi; i++) body], with the locals the body assigns
    threaded through as [acc]. *)
Fixpoint for_loop {X : Type} (n : nat) (i : Z)
    (body : Z -> X -> M X) (acc : X) : M X :=
  match n with
  | O => ret acc
  | S n' => bind (body i acc) (fun acc' => for_loop n' (i + 1) body acc')
  end.

Definition for_range {X : Type} (lo hi : Z)
    (body : Z -> X -> M X) (acc : X) : M X :=
  for_loop (Z.to_nat (hi - lo)) lo body acc.

End Conversions.

Notation "x <- c ;; k" := (bind c (fun x => k))
  (at level 61, c at next level, right associativity).
Notation "c ;;; k" := (bind c (fun _ => k))
  (at level 61, right associativity).

Section DcmToQuaternion.
Context {A : CArith}.

Local Open Scope Z_scope.

(** The scan for the largest diagonal element:
    [for(i = 1; i < 3; i++) if (dcm[i][i] > dcm[dcm_i][dcm_i]) dcm_i = i;] *)
Definition max_diag_body (i dcm_i : Z) : M Z :=
  x <- load_dcm i i ;;
  y <- load_dcm dcm_i dcm_i ;;
  ret (if (x >? y)%flt then i else dcm_i).

Definition mavlink_dcm_to_quaternion : M unit :=
  d00 <- load_dcm 0 0 ;;
  d11 <- load_dcm 1 1 ;;
  d22 <- load_dcm 2 2 ;;
  let tr := (d00 + d11 + d22)%flt in
  if (tr >? flit_0)%flt then
    let s := sqrtf (tr + flit_1)%flt in
    store_quaternion 0 (s * flit_0_5)%flt ;;;
    let s := (flit_0_5 / s)%flt in
    d21 <- load_dcm 2 1 ;;
    d12 <- load_dcm 1 2 ;;
    store_quaternion 1 ((d21 - d12) * s)%flt ;;;
    d02 <- load_dcm 0 2 ;;
    d20 <- load_dcm 2 0 ;;
    store_quaternion 2 ((d02 - d20) * s)%flt ;;;
    d10 <- load_dcm 1 0 ;;
    d01 <- load_dcm 0 1 ;;
    store_quaternion 3 ((d10 - d01) * s)%flt
  else
    dcm_i <- for_range 1 3 max_diag_body 0 ;;
    let dcm_j := Z.rem (dcm_i + 1) 3 in
    let dcm_k := Z.rem (dcm_i + 2) 3 in
    dii <- load_dcm dcm_i dcm_i ;;
    djj <- load_dcm dcm_j dcm_j ;;
    dkk <- load_dcm dcm_k dcm_k ;;
    let s := sqrtf ((dii - djj - dkk) + flit_1)%flt in
    store_quaternion (dcm_i + 1) (s * flit_0_5)%flt ;;;
    let s := (flit_0_5 / s)%flt in
    dij <- load_dcm dcm_i dcm_j ;;
    dji <- load_dcm dcm_j dcm_i ;;
    store_quaternion (dcm_j + 1) ((dij + dji) * s)%flt ;;;
    dki <- load_dcm dcm_k dcm_i ;;
    dik <- load_dcm dcm_i dcm_k ;;
    store_quaternion (dcm_k + 1) ((dki + dik) * s)%flt ;;;
    dkj <- load_dcm dcm_k dcm_j ;;
    djk <- load_dcm dcm_j dcm_k ;;
    store_quaternion 0 ((dkj - djk) * s)%flt.

End DcmToQuaternion.

(** ** The exact interpretation

    Both C types are the real numbers, promotion and narrowing are the
    identity, and [cos], [sin], [asin], [sqrt], [fabs] and [atan2] are
    the mathematical functions.  Three things separate it from
    binary32 beyond rounding, and the statements made in it avoid them:
    [asin] is the library's total function, which is [-PI/2] below -1
    and [PI/2] above 1 where C returns a NaN; [atan2] has one zero and
    so never returns [-PI]; and a test such as [tr > 0] is decided on
    the unrounded value. *)

Local Open Scope R_scope.

Definition Rltb (x y : R) : bool := if Rlt_dec x y then true else false.

(** [atan2 y x]: the angle of the point [(x, y)], in (-PI, PI]. *)
Definition atan2 (y x : R) : R :=
  if Rlt_dec 0 x then atan (y / x)
  else if Rlt_dec x 0 then
    (if Rle_dec 0 y then atan (y / x) + PI else atan (y / x) - PI)
  else if Rlt_dec 0 y then PI / 2
  else if Rlt_dec y 0 then - (PI / 2)
  else 0.

#[export] Instance RealArith : CArith := {|
  float := R;
  double := R;
  to_double := fun x => x;
  to_float := fun x => x;
  fadd := Rplus;
  fsub := Rminus;
  fmul := Rmult;
  fdiv := Rdiv;
  fneg := Ropp;
  fltb := Rltb;
  fabsf := Rabs;
  sqrtf := sqrt;
  atan2f := atan2;
  flit_0 := 0;
  flit_0_5 := 0.5;
  flit_1 := 1;
  flit_1em3 := 1.0e-3;
  dadd := Rplus;
  dsub := Rminus;
  dmul := Rmult;
  ddiv := Rdiv;
  dneg := Ropp;
  dlit_2 := 2;
  c_cos := cos;
  c_sin := sin;
  c_asin := asin;
  M_PI_2 := PI / 2
|}.

(** Real-valued arrays used to state results. *)

(** The quaternion [(w, x, y, z)] laid out as [float[4]]. *)
Definition quat (w x y z : R) : Z -> R :=
  fun n => match n with
           | 0%Z => w | 1%Z => x | 2%Z => y | 3%Z => z | _ => 0
           end.

(** The 3x3 identity matrix. *)
Definition identity_dcm : Z -> Z -> R :=
  fun i j => if Z.eqb i j then 1 else 0.

(** Sample attitudes: a half turn about the X axis (trace -1) and a
    quarter turn about the Y axis (pitch [PI/2], the gimbal-lock
    attitude). *)
Definition half_turn_x_dcm : Z -> Z -> R :=
  fun i j => if Z.eqb i j then (if Z.eqb i 0 then 1 else -1) else 0.

Definition pitch_up_dcm : Z -> Z -> R :=
  fun i j => match i, j with
             | 0%Z, 2%Z => 1
             | 1%Z, 1%Z => 1
             | 2%Z, 0%Z => -1
             | _, _ => 0
             end.

(** The caller's memory before [MatrixToQuaternion] runs on the half
    turn: the matrix, a zeroed quaternion, nothing accessed yet. *)
Definition half_turn_mem : mem (A := RealArith) :=
  Mem (A := RealArith) half_turn_x_dcm (quat 0 0 0 0) [].

(** [i] is the subscript of the largest diagonal element of [m], the
    lowest one among equal maxima (the wording of the specification). *)
Definition first_max_diag (m : Z -> Z -> R) (i : Z) : Prop :=
  (0 <= i < 3)%Z /\
  (forall j : Z, (0 <= j < 3)%Z -> m j j <= m i i) /\
  (forall j : Z, (0 <= j < i)%Z -> m j j < m i i).

(** The gimbal-lock test of the specification, on the pitch [theta]. *)
Definition gimbal_lock_condition (theta : R) : Prop :=
  Rabs (theta - PI / 2) < 1.0e-3 \/ Rabs (theta + PI / 2) < 1.0e-3.

(** The routines under the names of the specification, computed in
    exact arithmetic. *)
Definition QuaternionToMatrix := mavlink_quaternion_to_dcm (A := RealArith).
Definition MatrixToEuler := mavlink_dcm_to_euler (A := RealArith).
Definition QuaternionToEuler := mavlink_quaternion_to_euler (A := RealArith).
Definition EulerToQuaternion := mavlink_euler_to_quaternion (A := RealArith).
Definition MatrixToQuaternion := mavlink_dcm_to_quaternion (A := RealArith).
Definition EulerToMatrix := mavlink_euler_to_dcm (A := RealArith).

(** ** Reading the access log *)

Definition access_in_bounds (a : access) : bool :=
  match a with
  | LoadDcm i j => in_dcm i j
  | StoreQuaternion n => in_quaternion n
  end.

(** Subscripts of the quaternion cells written, in program order. *)
Fixpoint stores (l : list access) : list Z :=
  match l with
  | [] => []
  | LoadDcm _ _ :: l' => stores l'
  | StoreQuaternion n :: l' => n :: stores l'
  end.

(** ** Matrix and quaternion measures used to state further properties *)

(** Dot product of rows [i] and [k], of columns [i] and [k], and the
    determinant of a 3x3 matrix. *)
Definition dot_rows (m : Z -> Z -> R) (i k : Z) : R :=
  m i 0%Z * m k 0%Z + m i 1%Z * m k 1%Z + m i 2%Z * m k 2%Z.

Definition dot_cols (m : Z -> Z -> R) (i k : Z) : R :=
  m 0%Z i * m 0%Z k + m 1%Z i * m 1%Z k + m 2%Z i * m 2%Z k.

Definition det3 (m : Z -> Z -> R) : R :=
  m.[0, 0] * (m.[1, 1] * m.[2, 2] - m.[1, 2] * m.[2, 1])
  - m.[0, 1] * (m.[1, 0] * m.[2, 2] - m.[1, 2] * m.[2, 0])
  + m.[0, 2] * (m.[1, 0] * m.[2, 1] - m.[1, 1] * m.[2, 0]).

(** Squared norm of the quaternion held in [q[0..3]]. *)
Definition quat_norm2 (q : Z -> R) : R :=
  q.[0] ^ 2 + q.[1] ^ 2 + q.[2] ^ 2 + q.[3] ^ 2.

(** Kronecker delta on subscripts. *)
Definition delta (i k : Z) : R := if Z.eqb i k then 1 else 0.

(** ** [mavlink_dcm_to_quaternion] over one address space

    The C signature [(float dcm[3][3], float quaternion[4])] passes two
    pointers, neither [const] nor [restrict]: the caller may hand in
    storage that overlaps.  The record [mem] above cannot express that,
    so the routine is embedded a second time over a single store of
    [float] cells, with [dcm] and [quaternion] the addresses (in cells)
    the two parameters hold.  A load sees every store made before it. *)

Section FlatMemory.
Context {A : CArith}.

Local Open Scope Z_scope.

Definition heap : Type := Z -> float.

Definition FM (X : Type) : Type := heap -> option (X * heap).

Definition fret {X : Type} (x : X) : FM X := fun h => Some (x, h).

Definition fbind {X Y : Type} (c : FM X) (k : X -> FM Y) : FM Y :=
  fun h => match c h with
           | Some (x, h') => k x h'
           | None => None
           end.

(** Address of [dcm[i][j]] (rows of three cells) and of
    [quaternion[n]]. *)
Definition dcm_cell (dcm i j : Z) : Z := dcm + 3 * i + j.

Definition quaternion_cell (quaternion n : Z) : Z := quaternion + n.

Definition load_dcm_at (dcm i j : Z) : FM float :=
  fun h => if in_dcm i j then Some (h (dcm_cell dcm i j), h) else None.

Definition store_quaternion_at (quaternion n : Z) (v : float) : FM unit :=
  fun h =>
    if in_quaternion n
    then Some (tt, h <[quaternion_cell quaternion n := v]>)
    else None.

Fixpoint ffor_loop {X : Type} (n : nat) (i : Z)
    (body : Z -> X -> FM X) (acc : X) : FM X :=
  match n with
  | O => fret acc
  | S n' => fbind (body i acc) (fun acc' => ffor_loop n' (i + 1) body acc')
  end.

Definition ffor_range {X : Type} (lo hi : Z)
    (body : Z -> X -> FM X) (acc : X) : FM X :=
  ffor_loop (Z.to_nat (hi - lo)) lo body acc.

(** The cells [quaternion[0..3]], the matrix cells [dcm[0..2][0..2]],
    and the two blocks lying apart. *)
Definition in_quaternion_block (quaternion a : Z) : Prop :=
  quaternion <= a < quaternion + 4.

Definition blocks_apart (dcm quaternion : Z) : Prop :=
  dcm + 9 <= quaternion \/ quaternion + 4 <= dcm.

(** [c] runs to completion from every store, returns a value satisfying
    [Q], and changes no cell outside [quaternion[0..3]]. *)
Definition writes_only_quaternion {X : Type}
    (quaternion : Z) (c : FM X) (Q : X -> Prop) : Prop :=
  forall h : heap,
    exists (x : X) (h' : heap),
      c h = Some (x, h') /\ Q x /\
      forall a : Z, ~ in_quaternion_block quaternion a -> h' a = h a.

(** The store [h] holds, at the two addresses, the arrays of the
    two-array memory [m]. *)
Definition holds_arrays (pd pq : Z) (h : heap) (m : mem) : Prop :=
  (forall i j : Z, 0 <= i < 3 -> 0 <= j < 3 ->
     h (dcm_cell pd i j) = dcm m i j) /\
  (forall n : Z, 0 <= n < 4 -> h (quaternion_cell pq n) = quaternion m n).

(** [cf], over one address space, and [cm], over the two arrays, fail
    together or return the same value in stores that still correspond. *)
Definition simulates {X : Type} (pd pq : Z) (cf : FM X) (cm : M X) : Prop :=
  forall (h : heap) (m : mem),
    holds_arrays pd pq h m ->
    match cf h, cm m with
    | Some (x, h'), Some (x', m') => x = x' /\ holds_arrays pd pq h' m'
    | None, None => True
    | _, _ => False
    end.

End FlatMemory.

Notation "x <~ c ;; k" := (fbind c (fun x => k))
  (at level 61, c at next level, right associativity).
Notation "c ;;~ k" := (fbind c (fun _ => k))
  (at level 61, right associativity).

Section DcmToQuaternionFlat.
Context {A : CArith}.

Local Open Scope Z_scope.

Definition max_diag_body_at (dcm i dcm_i : Z) : FM Z :=
  x <~ load_dcm_at dcm i i ;;
  y <~ load_dcm_at dcm dcm_i dcm_i ;;
  fret (if (x >? y)%flt then i else dcm_i).

Definition mavlink_dcm_to_quaternion_at (dcm quaternion : Z) : FM unit :=
  d00 <~ load_dcm_at dcm 0 0 ;;
  d11 <~ load_dcm_at dcm 1 1 ;;
  d22 <~ load_dcm_at dcm 2 2 ;;
  let tr := (d00 + d11 + d22)%flt in
  if (tr >? flit_0)%flt then
    let s := sqrtf (tr + flit_1)%flt in
    store_quaternion_at quaternion 0 (s * flit_0_5)%flt ;;~
    let s := (flit_0_5 / s)%flt in
    d21 <~ load_dcm_at dcm 2 1 ;;
    d12 <~ load_dcm_at dcm 1 2 ;;
    store_quaternion_at quaternion 1 ((d21 - d12) * s)%flt ;;~
    d02 <~ load_dcm_at dcm 0 2 ;;
    d20 <~ load_dcm_at dcm 2 0 ;;
    store_quaternion_at quaternion 2 ((d02 - d20) * s)%flt ;;~
    d10 <~ load_dcm_at dcm 1 0 ;;
    d01 <~ load_dcm_at dcm 0 1 ;;
    store_quaternion_at quaternion 3 ((d10 - d01) * s)%flt
  else
    dcm_i <~ ffor_range 1 3 (max_diag_body_at dcm) 0 ;;
    let dcm_j := Z.rem (dcm_i + 1) 3 in
    let dcm_k := Z.rem (dcm_i + 2) 3 in
    dii <~ load_dcm_at dcm dcm_i dcm_i ;;
    djj <~ load_dcm_at dcm dcm_j dcm_j ;;
    dkk <~ load_dcm_at dcm dcm_k dcm_k ;;
    let s := sqrtf ((dii - djj - dkk) + flit_1)%flt in
    store_quaternion_at quaternion (dcm_i + 1) (s * flit_0_5)%flt ;;~
    let s := (flit_0_5 / s)%flt in
    dij <~ load_dcm_at dcm dcm_i dcm_j ;;
    dji <~ load_dcm_at dcm dcm_j dcm_i ;;
    store_quaternion_at quaternion (dcm_j + 1) ((dij + dji) * s)%flt ;;~
    dki <~ load_dcm_at dcm dcm_k dcm_i ;;
    dik <~ load_dcm_at dcm dcm_i dcm_k ;;
    store_quaternion_at quaternion (dcm_k + 1) ((dki + dik) * s)%flt ;;~
    dkj <~ load_dcm_at dcm dcm_k dcm_j ;;
    djk <~ load_dcm_at dcm dcm_j dcm_k ;;
    store_quaternion_at quaternion 0 ((dkj - djk) * s)%flt.

End DcmToQuaternionFlat.

(** One buffer of nine cells holding the half turn about X, handed in
    as both arguments: [float buf[9] = {1,0,0, 0,-1,0, 0,0,-1}]. *)
Definition shared_buf : heap (A := RealArith) :=
  fun a => match a with
           | 0%Z => 1
           | 4%Z => -1
           | 8%Z => -1
           | _ => 0
           end.

(** * Properties for every arithmetic *)

Section AnyArithmetic.
Context {A : CArith}.

Local Open Scope Z_scope.

(** The closed form of the diagonal scan: [diag_scan1] is [dcm_i]
    after the iteration [i = 1], [diag_scan] after [i = 2]. *)
Definition diag_scan1 (d : Z -> Z -> float) : Z :=
  if (d 1 1 >? d 0 0)%flt then 1 else 0.

Definition diag_scan (d : Z -> Z -> float) : Z :=
  let i1 := diag_scan1 d in
  if (d 2 2 >? d i1 i1)%flt then 2 else i1.

Definition trace_of (d : Z -> Z -> float) : float :=
  (d 0 0 + d 1 1 + d 2 2)%flt.

(** The two tests of [mavlink_dcm_to_euler], as the code evaluates
    them on the narrowed pitch. *)
Definition near_plus_half_pi (theta : float) : bool :=
  (fabsf (theta - to_float M_PI_2) <? flit_1em3)%flt.

Definition near_minus_half_pi (theta : float) : bool :=
  (fabsf (theta + to_float M_PI_2) <? flit_1em3)%flt.

(** [<] behaves as a strict weak order on the values in [l]: true of
    binary32 values none of which is a NaN. *)
Definition weak_order_on (l : list float) : Prop :=
  (forall x, In x l -> (x <? x)%flt = false) /\
  (forall x y z, In x l -> In y l -> In z l ->
     (x <? y)%flt = true -> (y <? z)%flt = true -> (x <? z)%flt = true) /\
  (forall x y z, In x l -> In y l -> In z l ->
     (x <? z)%flt = true -> (x <? y)%flt = true \/ (y <? z)%flt = true).

(** [i] is the subscript of a largest diagonal element, the lowest one
    among equal maxima, for the comparison of the arithmetic. *)
Definition first_max_diag_by (d : Z -> Z -> float) (i : Z) : Prop :=
  0 <= i < 3 /\
  (forall j : Z, 0 <= j < 3 -> (d j j >? d i i)%flt = false) /\
  (forall j : Z, 0 <= j < i -> (d i i >? d j j)%flt = true).

(** Closed forms of the final quaternion and of the access log, one
    pair per arm of [if (tr > 0.0f)]. *)
Definition quaternion_pos (d : Z -> Z -> float) (q : Z -> float) : Z -> float :=
  let s := sqrtf (trace_of d + flit_1)%flt in
  let q := q <[0 := (s * flit_0_5)%flt]> in
  let s := (flit_0_5 / s)%flt in
  q <[1 := ((d 2 1 - d 1 2) * s)%flt]>
    <[2 := ((d 0 2 - d 2 0) * s)%flt]>
    <[3 := ((d 1 0 - d 0 1) * s)%flt]>.

Definition log_pos : list access :=
  [LoadDcm 0 0; LoadDcm 1 1; LoadDcm 2 2;
   StoreQuaternion 0;
   LoadDcm 2 1; LoadDcm 1 2; StoreQuaternion 1;
   LoadDcm 0 2; LoadDcm 2 0; StoreQuaternion 2;
   LoadDcm 1 0; LoadDcm 0 1; StoreQuaternion 3].

Definition quaternion_nonpos (d : Z -> Z -> float) (q : Z -> float) : Z -> float :=
  let i := diag_scan d in
  let j := Z.rem (i + 1) 3 in
  let k := Z.rem (i + 2) 3 in
  let s := sqrtf ((d i i - d j j - d k k) + flit_1)%flt in
  let q := q <[i + 1 := (s * flit_0_5)%flt]> in
  let s := (flit_0_5 / s)%flt in
  q <[j + 1 := ((d i j + d j i) * s)%flt]>
    <[k + 1 := ((d k i + d i k) * s)%flt]>
    <[0 := ((d k j - d j k) * s)%flt]>.

Definition log_nonpos (d : Z -> Z -> float) : list access :=
  let i1 := diag_scan1 d in
  let i := diag_scan d in
  let j := Z.rem (i + 1) 3 in
  let k := Z.rem (i + 2) 3 in
  [LoadDcm 0 0; LoadDcm 1 1; LoadDcm 2 2;
   LoadDcm 1 1; LoadDcm 0 0; LoadDcm 2 2; LoadDcm i1 i1;
   LoadDcm i i; LoadDcm j j; LoadDcm k k; StoreQuaternion (i + 1);
   LoadDcm i j; LoadDcm j i; StoreQuaternion (j + 1);
   LoadDcm k i; LoadDcm i k; StoreQuaternion (k + 1);
   LoadDcm k j; LoadDcm j k; StoreQuaternion 0].

Lemma diag_scan_cases (d : Z -> Z -> float) :
  diag_scan d = 0 \/ diag_scan d = 1 \/ diag_scan d = 2.
Proof.
  unfold diag_scan, diag_scan1.
  destruct (d 1 1 >? d 0 0)%flt;
    match goal with |- context [if ?c then 2 else _] => destruct c end;
    auto.
Qed.

Lemma diag_scan_range (d : Z -> Z -> float) : 0 <= diag_scan d < 3.
Proof. destruct (diag_scan_cases d) as [H | [H | H]]; rewrite H; lia. Qed.

Lemma max_diag_scan_run (m : mem) :
  for_range 1 3 max_diag_body 0 m =
  Some (diag_scan (dcm m),
        Mem (dcm m) (quaternion m)
            (accesses m ++
             [LoadDcm 1 1; LoadDcm 0 0; LoadDcm 2 2;
              LoadDcm (diag_scan1 (dcm m)) (diag_scan1 (dcm m))])).
Proof.
  unfold for_range, diag_scan, diag_scan1.
  change (Z.to_nat (3 - 1)) with 2%nat.
  unfold for_loop, max_diag_body, bind, load_dcm, ret. cbn.
  destruct (dcm m 1 1 >? dcm m 0 0)%flt; cbn;
    rewrite <- !app_assoc; reflexivity.
Qed.

Lemma dcm_to_quaternion_run_pos (m : mem) :
  (trace_of (dcm m) >? flit_0)%flt = true ->
  mavlink_dcm_to_quaternion m =
  Some (tt, Mem (dcm m) (quaternion_pos (dcm m) (quaternion m))
                (accesses m ++ log_pos)).
Proof.
  intros Htr.
  unfold mavlink_dcm_to_quaternion, bind, load_dcm, store_quaternion.
  cbn. fold (trace_of (dcm m)). rewrite Htr. cbn.
  rewrite <- !app_assoc. reflexivity.
Qed.

Lemma dcm_to_quaternion_run_nonpos (m : mem) :
  (trace_of (dcm m) >? flit_0)%flt = false ->
  mavlink_dcm_to_quaternion m =
  Some (tt, Mem (dcm m) (quaternion_nonpos (dcm m) (quaternion m))
                (accesses m ++ log_nonpos (dcm m))).
Proof.
  intros Htr.
  unfold mavlink_dcm_to_quaternion.
  unfold bind at 1 2 3. unfold load_dcm at 1 2 3. cbn.
  fold (trace_of (dcm m)). rewrite Htr.
  change (for_loop _ 1 max_diag_body 0)
    with (for_range 1 3 max_diag_body 0).
  unfold bind at 1. rewrite max_diag_scan_run. cbn [dcm quaternion accesses].
  unfold quaternion_nonpos, log_nonpos.
  destruct (diag_scan_cases (dcm m)) as [H | [H | H]]; rewrite H;
    unfold bind, load_dcm, store_quaternion; cbn;
    rewrite <- !app_assoc; reflexivity.
Qed.
Lemma rem3_cases (i : Z) :
  0 <= i < 3 ->
  (i = 0 /\ Z.rem (i + 1) 3 = 1 /\ Z.rem (i + 2) 3 = 2) \/
  (i = 1 /\ Z.rem (i + 1) 3 = 2 /\ Z.rem (i + 2) 3 = 0) \/
  (i = 2 /\ Z.rem (i + 1) 3 = 0 /\ Z.rem (i + 2) 3 = 1).
Proof.
  intros Hi.
  assert (i = 0 \/ i = 1 \/ i = 2) as [-> | [-> | ->]] by lia;
    cbn; intuition congruence.
Qed.

(** The routine always runs to completion, whatever the arm. *)
Lemma dcm_to_quaternion_run (m : mem) :
  exists q' log,
    mavlink_dcm_to_quaternion m =
    Some (tt, Mem (dcm m) q' (accesses m ++ log)) /\
    (forall n, in_quaternion n = false -> q' n = quaternion m n) /\
    forallb access_in_bounds log = true.
Proof.
  destruct (trace_of (dcm m) >? flit_0)%flt eqn:Htr.
  - exists (quaternion_pos (dcm m) (quaternion m)), log_pos.
    split; [now apply dcm_to_quaternion_run_pos | split; [| reflexivity]].
    intros n Hn. unfold quaternion_pos, upd.
    destruct (Z.eqb_spec n 3), (Z.eqb_spec n 2), (Z.eqb_spec n 1),
      (Z.eqb_spec n 0); subst; try discriminate; reflexivity.
  - exists (quaternion_nonpos (dcm m) (quaternion m)), (log_nonpos (dcm m)).
    split; [now apply dcm_to_quaternion_run_nonpos |].
    unfold quaternion_nonpos, log_nonpos, diag_scan1.
    destruct (rem3_cases _ (diag_scan_range (dcm m)))
      as [(-> & -> & ->) | [(-> & -> & ->) | (-> & -> & ->)]];
      (split;
       [ intros n Hn; unfold upd; cbn;
         destruct (Z.eqb_spec n 3), (Z.eqb_spec n 2), (Z.eqb_spec n 1),
           (Z.eqb_spec n 0); subst; try discriminate; reflexivity
       | destruct (dcm m 1 1 >? dcm m 0 0)%flt; reflexivity ]).
Qed.

(** C10. In the non-positive-trace arm the selected subscript [dcm_i]
    (the result of the scan) lies in {0, 1, 2}, and so do
    [dcm_j = (dcm_i + 1) % 3] and [dcm_k = (dcm_i + 2) % 3]; the call
    completes with every access inside the declared extents; the
    stores go to [quaternion[dcm_i + 1]], [quaternion[dcm_j + 1]],
    [quaternion[dcm_k + 1]] and [quaternion[0]], in that order, and
    these are the four cells 0..3, each written exactly once. *)
Theorem dcm_to_quaternion_nonpos_in_bounds (m : mem) :
  (trace_of (dcm m) >? flit_0)%flt = false ->
  exists (dcm_i : Z) (m1 m' : mem) (log : list access),
    let dcm_j := Z.rem (dcm_i + 1) 3 in
    let dcm_k := Z.rem (dcm_i + 2) 3 in
    for_range 1 3 max_diag_body 0 m = Some (dcm_i, m1) /\
    0 <= dcm_i < 3 /\ 0 <= dcm_j < 3 /\ 0 <= dcm_k < 3 /\
    mavlink_dcm_to_quaternion m = Some (tt, m') /\
    accesses m' = accesses m ++ log /\
    forallb access_in_bounds log = true /\
    stores log = [dcm_i + 1; dcm_j + 1; dcm_k + 1; 0] /\
    Forall (fun n => 0 <= n < 4) (stores log) /\
    Permutation (stores log) [0; 1; 2; 3].
Proof.
  intros Htr.
  exists (diag_scan (dcm m)).
  eexists.
  exists (Mem (dcm m) (quaternion_nonpos (dcm m) (quaternion m))
              (accesses m ++ log_nonpos (dcm m))).
  exists (log_nonpos (dcm m)). cbv zeta.
  split; [apply max_diag_scan_run |].
  rewrite (dcm_to_quaternion_run_nonpos m Htr).
  unfold log_nonpos, diag_scan1.
  assert (P0 : Permutation [1; 2; 3; 0] [0; 1; 2; 3]).
  { change [0; 1; 2; 3] with ([0] ++ [1; 2; 3]).
    change [1; 2; 3; 0] with ([1; 2; 3] ++ [0]).
    apply Permutation_app_comm. }
  assert (P1 : Permutation [2; 3; 1; 0] [0; 1; 2; 3]).
  { apply perm_trans with [2; 3; 0; 1].
    - do 2 apply perm_skip. apply perm_swap.
    - change [0; 1; 2; 3] with ([0; 1] ++ [2; 3]).
      change [2; 3; 0; 1] with ([2; 3] ++ [0; 1]).
      apply Permutation_app_comm. }
  assert (P2 : Permutation [3; 1; 2; 0] [0; 1; 2; 3]).
  { apply perm_trans with [3; 0; 1; 2].
    - apply perm_skip.
      change [1; 2; 0] with ([1; 2] ++ [0]).
      change [0; 1; 2] with ([0] ++ [1; 2]).
      apply Permutation_app_comm.
    - change [0; 1; 2; 3] with ([0; 1; 2] ++ [3]).
      change [3; 0; 1; 2] with ([3] ++ [0; 1; 2]).
      apply Permutation_app_comm. }
  destruct (rem3_cases _ (diag_scan_range (dcm m)))
    as [(-> & -> & ->) | [(-> & -> & ->) | (-> & -> & ->)]];
    destruct (dcm m 1 1 >? dcm m 0 0)%flt; cbn;
    (split; [lia |]); (split; [lia |]); (split; [lia |]);
    (split; [reflexivity |]); (split; [reflexivity |]);
    (split; [reflexivity |]); (split; [reflexivity |]);
    (split; [repeat constructor; lia | assumption]).
Qed.
(** *** The arms of [mavlink_dcm_to_euler] *)

Lemma dcm_to_euler_branch_tests (m : Z -> Z -> float) :
  dcm_to_euler_branch m =
  if near_plus_half_pi (dcm_theta m) then GimbalPlus
  else if near_minus_half_pi (dcm_theta m) then GimbalMinus
  else Regular.
Proof. reflexivity. Qed.

Lemma dcm_to_euler_pitch (m : Z -> Z -> float) :
  pitch (mavlink_dcm_to_euler m) = dcm_theta m.
Proof.
  unfold mavlink_dcm_to_euler.
  destruct (dcm_to_euler_branch m); reflexivity.
Qed.

Lemma dcm_to_euler_regular (m : Z -> Z -> float) :
  near_plus_half_pi (dcm_theta m) = false ->
  near_minus_half_pi (dcm_theta m) = false ->
  roll (mavlink_dcm_to_euler m) = atan2f (m 2 1) (m 2 2) /\
  yaw (mavlink_dcm_to_euler m) = atan2f (m 1 0) (m 0 0).
Proof.
  intros Hp Hm. unfold mavlink_dcm_to_euler.
  rewrite dcm_to_euler_branch_tests, Hp, Hm. split; reflexivity.
Qed.

(** C1. For every arithmetic and every matrix, [mavlink_dcm_to_euler]
    takes a gimbal-lock arm exactly when one of the two tests
    [fabsf(theta - (float)M_PI_2) < 1.0e-3f],
    [fabsf(theta + (float)M_PI_2) < 1.0e-3f] succeeds on the pitch
    [theta = asin(-dcm[2][0])] as the code computes and compares it (so
    a pitch that is not a number fails both and takes the regular arm).
    In that case it returns [roll = 0.0f] and the pitch [theta].  The
    yaw is [atan2f(dcm[1][2] - dcm[0][1], dcm[0][2] + dcm[1][1])] with
    the zero roll entering with opposite signs: added to the [atan2f]
    in the [+PI/2] arm, subtracted inside its second argument in the
    [-PI/2] arm; wherever adding, respectively subtracting, [0.0f]
    gives back the operand, the yaw is the plain [atan2f]. *)
Theorem dcm_to_euler_gimbal_lock (m : Z -> Z -> float) :
  let theta := to_float (c_asin (to_double (- m 2 0)%flt)) in
  let a := (m 1 2 - m 0 1)%flt in
  let b := (m 0 2 + m 1 1)%flt in
  let e := mavlink_dcm_to_euler m in
  let branch := dcm_to_euler_branch m in
  (branch <> Regular <->
     near_plus_half_pi theta = true \/ near_minus_half_pi theta = true) /\
  (branch = GimbalPlus <-> near_plus_half_pi theta = true) /\
  (branch = GimbalMinus <->
     near_plus_half_pi theta = false /\ near_minus_half_pi theta = true) /\
  (near_plus_half_pi theta = true \/ near_minus_half_pi theta = true ->
     roll e = flit_0 /\ pitch e = theta) /\
  (branch = GimbalPlus -> yaw e = (atan2f a b + roll e)%flt) /\
  (branch = GimbalMinus -> yaw e = atan2f a (b - roll e)%flt) /\
  (near_plus_half_pi theta = true ->
     (atan2f a b + flit_0)%flt = atan2f a b -> yaw e = atan2f a b) /\
  (near_plus_half_pi theta = false -> near_minus_half_pi theta = true ->
     (b - flit_0)%flt = b -> yaw e = atan2f a b).
Proof.
  intros theta a b e branch.
  assert (Hb : branch =
               if near_plus_half_pi theta then GimbalPlus
               else if near_minus_half_pi theta then GimbalMinus
               else Regular) by reflexivity.
  assert (He : e = mavlink_dcm_to_euler m) by reflexivity.
  unfold mavlink_dcm_to_euler in He. fold branch in He.
  fold theta in He. change (dcm_theta m) with theta in He.
  clearbody branch e.
  destruct (near_plus_half_pi theta) eqn:Hp;
    [| destruct (near_minus_half_pi theta) eqn:Hm]; subst branch e;
    cbn [roll pitch yaw]; fold a b.
  all: repeat split; intros;
    repeat match goal with
      | H : _ \/ _ |- _ => destruct H
      | H : _ /\ _ |- _ => destruct H
      end;
    try discriminate; try congruence; auto.
Qed.

(** C2. For every arithmetic and every memory, [mavlink_dcm_to_quaternion]
    runs to completion and branches on the trace
    [tr = dcm[0][0] + dcm[1][1] + dcm[2][2]] as the code adds it.  When
    [tr > 0.0f] it returns [w = sqrtf(tr + 1) * 0.5f] (half the root)
    and the three differences scaled by [s' = 0.5f / sqrtf(tr + 1)].
    Otherwise it takes the subscript [i] left by the scan from 0 that
    replaces on strict [>] only, which is the lowest subscript of a
    largest diagonal element whenever [<] orders the three diagonal
    values; with [j = (i+1) mod 3], [k = (i+2) mod 3] and
    [s = sqrtf(R[i][i] - R[j][j] - R[k][k] + 1)] it returns component
    [i+1] as [s * 0.5f] and components [j+1], [k+1] and [w] as the
    stated sums and difference scaled by [s' = 0.5f / s]. *)
Theorem dcm_to_quaternion_shepherd (m : mem) :
  let d := dcm m in
  let tr := (d 0 0 + d 1 1 + d 2 2)%flt in
  exists m' : mem,
    mavlink_dcm_to_quaternion m = Some (tt, m') /\
    let q := quaternion m' in
    ((tr >? flit_0)%flt = true ->
       let s := sqrtf (tr + flit_1)%flt in
       let s' := (flit_0_5 / s)%flt in
       q 0 = (s * flit_0_5)%flt /\
       q 1 = ((d 2 1 - d 1 2) * s')%flt /\
       q 2 = ((d 0 2 - d 2 0) * s')%flt /\
       q 3 = ((d 1 0 - d 0 1) * s')%flt) /\
    ((tr >? flit_0)%flt = false ->
       exists i : Z,
         i = diag_scan d /\
         0 <= i < 3 /\
         (weak_order_on [d 0 0; d 1 1; d 2 2] -> first_max_diag_by d i) /\
         let j := (i + 1) mod 3 in
         let k := (i + 2) mod 3 in
         let s := sqrtf ((d i i - d j j - d k k) + flit_1)%flt in
         let s' := (flit_0_5 / s)%flt in
         q (i + 1) = (s * flit_0_5)%flt /\
         q (j + 1) = ((d i j + d j i) * s')%flt /\
         q (k + 1) = ((d k i + d i k) * s')%flt /\
         q 0 = ((d k j - d j k) * s')%flt).
Proof.
  intros d tr. subst d tr. destruct m as [d q l]. cbn [dcm].
  fold (trace_of d).
  destruct (trace_of d >? flit_0)%flt eqn:Htr.
  - eexists. split; [now apply dcm_to_quaternion_run_pos |].
    cbv zeta. split; [intros _ | intros H; discriminate].
    cbn [quaternion dcm]. unfold quaternion_pos, upd. cbn [Z.eqb Pos.eqb].
    repeat split.
  - eexists. split; [now apply dcm_to_quaternion_run_nonpos |].
    cbv zeta. split; [intros H; discriminate | intros _].
    exists (diag_scan d). split; [reflexivity |].
    split; [apply diag_scan_range |].
    split.
    + (* the scan leaves the first maximum *)
      intros (Hirr & Htra & Hcot).
      assert (I0 : In (d 0 0) [d 0 0; d 1 1; d 2 2]) by (cbn; auto).
      assert (I1 : In (d 1 1) [d 0 0; d 1 1; d 2 2]) by (cbn; auto).
      assert (I2 : In (d 2 2) [d 0 0; d 1 1; d 2 2]) by (cbn; auto).
      assert (Hasym : forall x y, In x [d 0 0; d 1 1; d 2 2] ->
                 In y [d 0 0; d 1 1; d 2 2] ->
                 (x <? y)%flt = true -> (y <? x)%flt = false).
      { intros x y Hx Hy Hxy. destruct (y <? x)%flt eqn:Hyx; [| reflexivity].
        rewrite <- (Hirr x Hx). symmetry. now apply (Htra x y x). }
      unfold first_max_diag_by, diag_scan, diag_scan1.
      destruct (d 1 1 >? d 0 0)%flt eqn:H1;
        match goal with |- context [if ?c then 2 else _] =>
          destruct c eqn:H2 end;
        (split; [lia |]);
        (split; intros j Hj;
         (assert (Ej : j = 0 \/ j = 1 \/ j = 2) by lia);
         destruct Ej as [-> | [-> | ->]]; try lia; auto).
      * (* d00 < d11 < d22 *) apply Hasym; auto. now apply (Htra _ (d 1 1)).
      * now apply (Htra _ (d 1 1)).
      * (* not d00 < d11, d00 < d22 *)
        destruct (d 1 1 >? d 2 2)%flt eqn:H3; [| reflexivity].
        rewrite <- H1. symmetry. now apply (Htra _ (d 2 2)).
      * destruct (Hcot (d 0 0) (d 1 1) (d 2 2) I0 I1 I2 H2) as [H | H];
          [congruence | exact H].
    + cbn [quaternion dcm]. unfold quaternion_nonpos, upd.
      destruct (diag_scan_cases d) as [-> | [-> | ->]];
        cbn; repeat split.
Qed.

End AnyArithmetic.

(** The property above at a sample memory: the half turn about X as
    input matrix, computed in exact arithmetic. *)
Section SampleRun.
Local Open Scope Z_scope.

Lemma dcm_to_quaternion_nonpos_in_bounds_witness :
  let m := half_turn_mem in
  (trace_of (dcm m) >? flit_0)%flt = false /\
  exists (dcm_i : Z) (m1 m' : mem) (log : list access),
    for_range 1 3 max_diag_body 0 m = Some (dcm_i, m1) /\
    0 <= dcm_i < 3 /\
    0 <= Z.rem (dcm_i + 1) 3 < 3 /\
    0 <= Z.rem (dcm_i + 2) 3 < 3 /\
    mavlink_dcm_to_quaternion m = Some (tt, m') /\
    accesses m' = accesses m ++ log /\
    forallb access_in_bounds log = true /\
    stores log = [dcm_i + 1; Z.rem (dcm_i + 1) 3 + 1;
                  Z.rem (dcm_i + 2) 3 + 1; 0] /\
    Forall (fun n => 0 <= n < 4) (stores log) /\
    Permutation (stores log) [0; 1; 2; 3].
Proof.
  assert (H : (trace_of (A := RealArith) half_turn_x_dcm >? flit_0)%flt
              = false).
  { cbv [trace_of half_turn_x_dcm Z.eqb Pos.eqb fadd fltb flit_0
         RealArith Rltb].
    match goal with
    | |- context [Rlt_dec ?a ?b] =>
        destruct (Rlt_dec a b) as [Hlt | _]; [lra | reflexivity]
    end. }
  split; [exact H |].
  exact (dcm_to_quaternion_nonpos_in_bounds half_turn_mem H).
Defined.
End SampleRun.

(** * What [mavlink_dcm_to_quaternion] writes, over one address space *)

Section FlatFrame.
Context {A : CArith}.
Variables dcm quaternion : Z.

Local Open Scope Z_scope.

Lemma writes_ret {X : Type} (x : X) (Q : X -> Prop) :
  Q x -> writes_only_quaternion quaternion (fret x) Q.
Proof. intros Hx h. exists x, h. auto. Qed.

Lemma writes_bind {X Y : Type} (c : FM X) (k : X -> FM Y)
    (Q : X -> Prop) (R : Y -> Prop) :
  writes_only_quaternion quaternion c Q ->
  (forall x, Q x -> writes_only_quaternion quaternion (k x) R) ->
  writes_only_quaternion quaternion (fbind c k) R.
Proof.
  intros Hc Hk h.
  destruct (Hc h) as (x & h1 & E1 & Hx & F1).
  destruct (Hk x Hx h1) as (y & h2 & E2 & Hy & F2).
  exists y, h2. unfold fbind. rewrite E1.
  split; [exact E2 | split; [exact Hy |]].
  intros a Ha. now rewrite F2, F1.
Qed.

Lemma writes_load (i j : Z) :
  in_dcm i j = true ->
  writes_only_quaternion quaternion (load_dcm_at dcm i j) (fun _ => True).
Proof.
  intros Hij h. unfold load_dcm_at. rewrite Hij.
  eexists; eexists. split; [reflexivity | auto].
Qed.

Lemma writes_store (n : Z) (v : float) :
  in_quaternion n = true ->
  writes_only_quaternion quaternion
    (store_quaternion_at quaternion n v) (fun _ => True).
Proof.
  intros Hn h. unfold store_quaternion_at. rewrite Hn.
  eexists; eexists. split; [reflexivity | split; [exact I |]].
  intros a Ha. unfold upd, quaternion_cell.
  destruct (Z.eqb_spec a (quaternion + n)) as [-> | _]; [| reflexivity].
  exfalso. apply Ha. unfold in_quaternion_block, in_quaternion in *. lia.
Qed.

Lemma writes_weaken {X : Type} (c : FM X) (Q Q' : X -> Prop) :
  (forall x, Q x -> Q' x) ->
  writes_only_quaternion quaternion c Q ->
  writes_only_quaternion quaternion c Q'.
Proof.
  intros HQ Hc h. destruct (Hc h) as (x & h' & E & Hx & F).
  exists x, h'. auto.
Qed.

(** One iteration of the scan keeps the candidate in range. *)
Lemma writes_scan_body (i dcm_i : Z) :
  0 <= i < 3 -> 0 <= dcm_i < 3 ->
  writes_only_quaternion quaternion (max_diag_body_at dcm i dcm_i)
    (fun r => 0 <= r < 3).
Proof.
  intros Hi Hd. unfold max_diag_body_at.
  apply writes_bind with (Q := fun _ => True).
  { apply writes_load. unfold in_dcm. lia. }
  intros x _. apply writes_bind with (Q := fun _ => True).
  { apply writes_load. unfold in_dcm. lia. }
  intros y _. apply writes_ret. destruct (x >? y)%flt; assumption.
Qed.

(** The scan [for (i = lo; i < lo + n; i++)] inside the matrix keeps the
    candidate in range, by induction on the number of iterations. *)
Lemma writes_scan_loop (n : nat) (lo dcm_i : Z) :
  0 <= lo -> lo + Z.of_nat n <= 3 -> 0 <= dcm_i < 3 ->
  writes_only_quaternion quaternion
    (ffor_loop n lo (max_diag_body_at dcm) dcm_i) (fun r => 0 <= r < 3).
Proof.
  revert lo dcm_i. induction n as [| n IH]; intros lo dcm_i Hlo Hhi Hd.
  - now apply writes_ret.
  - cbn [ffor_loop].
    apply writes_bind with (Q := fun r => 0 <= r < 3).
    + apply writes_scan_body; lia.
    + intros r Hr. apply IH; lia.
Qed.

Lemma writes_scan :
  writes_only_quaternion quaternion
    (ffor_range 1 3 (max_diag_body_at dcm) 0) (fun r => 0 <= r < 3).
Proof.
  unfold ffor_range. change (Z.to_nat (3 - 1)) with 2%nat.
  apply writes_scan_loop; lia.
Qed.

(** The steps of the straight-line parts. *)
Ltac writes_step :=
  first
    [ apply writes_store; reflexivity
    | apply writes_bind with (Q := fun _ => True);
      [ first [ apply writes_load; reflexivity
              | apply writes_store; reflexivity ]
      | intros ? _ ] ].

Lemma writes_dcm_to_quaternion :
  writes_only_quaternion quaternion
    (mavlink_dcm_to_quaternion_at dcm quaternion) (fun _ => True).
Proof.
  unfold mavlink_dcm_to_quaternion_at.
  do 3 writes_step.
  match goal with |- context [if ?c then _ else _] => destruct c end.
  - repeat writes_step.
  - apply writes_bind with (Q := fun r => 0 <= r < 3);
      [apply writes_scan |].
    intros i Hi.
    assert (E : i = 0 \/ i = 1 \/ i = 2) by lia.
    destruct E as [-> | [-> | ->]]; cbn [Z.rem Z.add Z.quotrem Z.pos_div_eucl];
      repeat writes_step.
Qed.

(** C9 (amended).  For every arithmetic, every store and every pair of
    addresses, [mavlink_dcm_to_quaternion] runs to completion and
    changes no cell other than [quaternion[0..3]]; hence, when the
    quaternion array does not overlap the matrix, the nine entries of
    the matrix are the same before and after the call. *)
Theorem dcm_to_quaternion_frame (h : heap) :
  exists h' : heap,
    mavlink_dcm_to_quaternion_at dcm quaternion h = Some (tt, h') /\
    (forall a : Z, ~ in_quaternion_block quaternion a -> h' a = h a) /\
    (blocks_apart dcm quaternion ->
     forall i j : Z, 0 <= i < 3 -> 0 <= j < 3 ->
       h' (dcm_cell dcm i j) = h (dcm_cell dcm i j)).
Proof.
  destruct (writes_dcm_to_quaternion h) as ([] & h' & Hrun & _ & Hframe).
  exists h'. split; [exact Hrun | split; [exact Hframe |]].
  intros Hapart i j Hi Hj. apply Hframe.
  unfold in_quaternion_block, dcm_cell, blocks_apart in *. lia.
Qed.

End FlatFrame.

(** * Properties of the computed values, in exact arithmetic *)

(** Unfolds the arithmetic interface at [RealArith] and evaluates array
    stores and subscripts, leaving expressions over the reals. *)
Ltac real_arith :=
  cbv beta iota zeta delta
    [float double to_double to_float fadd fsub fmul fdiv fneg fltb fabsf
     sqrtf atan2f flit_0 flit_0_5 flit_1 flit_1em3 dadd dsub dmul ddiv dneg
     dlit_2 c_cos c_sin c_asin M_PI_2 RealArith
     upd upd2 Z.eqb Pos.eqb quat identity_dcm half_turn_x_dcm pitch_up_dcm
     roll pitch yaw dcm quaternion accesses].

(** Evaluates subscript expressions over literals, such as
    [(1 + 2) mod 3]. *)
Ltac is_pos_literal p :=
  lazymatch p with
  | xH => idtac
  | xO ?q => is_pos_literal q
  | xI ?q => is_pos_literal q
  end.

Ltac is_Z_literal z :=
  lazymatch z with
  | Z0 => idtac
  | Zpos ?p => is_pos_literal p
  | Zneg ?p => is_pos_literal p
  end.

Ltac eval_subscripts :=
  repeat match goal with
    | |- context [Z.add ?a ?b] =>
        is_Z_literal a; is_Z_literal b;
        let v := eval vm_compute in (Z.add a b) in
        change (Z.add a b) with v
    | |- context [Z.modulo ?a ?b] =>
        is_Z_literal a; is_Z_literal b;
        let v := eval vm_compute in (Z.modulo a b) in
        change (Z.modulo a b) with v
    | |- context [Z.rem ?a ?b] =>
        is_Z_literal a; is_Z_literal b;
        let v := eval vm_compute in (Z.rem a b) in
        change (Z.rem a b) with v
    end.

Section ExactArithmetic.

Lemma Rltb_true (x y : R) : Rltb x y = true <-> x < y.
Proof. unfold Rltb. destruct (Rlt_dec x y); intuition discriminate. Qed.

Lemma Rltb_false (x y : R) : Rltb x y = false <-> ~ x < y.
Proof. unfold Rltb. destruct (Rlt_dec x y); intuition discriminate. Qed.

(** The pitch computed by [MatrixToEuler]. *)
Lemma dcm_theta_exact (m : Z -> Z -> R) :
  dcm_theta (A := RealArith) m = asin (- m.[2, 0]).
Proof. reflexivity. Qed.

Lemma gimbal_tests_exclusive (theta : R) :
  Rabs (theta - PI / 2) < 1.0e-3 -> ~ Rabs (theta + PI / 2) < 1.0e-3.
Proof.
  intros H1 H2. pose proof PI2_1.
  apply Rabs_def2 in H1. apply Rabs_def2 in H2. lra.
Qed.

(** Which arm runs, in terms of the two tests on the pitch. *)
Lemma branch_plus_iff (m : Z -> Z -> R) :
  dcm_to_euler_branch (A := RealArith) m = GimbalPlus <->
  Rabs (asin (- m.[2, 0]) - PI / 2) < 1.0e-3.
Proof.
  unfold dcm_to_euler_branch. rewrite dcm_theta_exact. real_arith.
  destruct (Rltb _ _) eqn:H1.
  - apply Rltb_true in H1. now split.
  - apply Rltb_false in H1.
    destruct (Rltb _ _); split; intros H; try discriminate; tauto.
Qed.

Lemma branch_minus_iff (m : Z -> Z -> R) :
  dcm_to_euler_branch (A := RealArith) m = GimbalMinus <->
  Rabs (asin (- m.[2, 0]) + PI / 2) < 1.0e-3.
Proof.
  unfold dcm_to_euler_branch. rewrite dcm_theta_exact. real_arith.
  destruct (Rltb _ _) eqn:H1.
  - apply Rltb_true in H1.
    split; [discriminate |].
    intros H2. now apply gimbal_tests_exclusive in H1.
  - apply Rltb_false in H1. destruct (Rltb _ _) eqn:H2.
    + apply Rltb_true in H2. now split.
    + apply Rltb_false in H2. split; [discriminate | tauto].
Qed.

Lemma branch_regular_iff (m : Z -> Z -> R) :
  dcm_to_euler_branch (A := RealArith) m = Regular <->
  ~ gimbal_lock_condition (asin (- m.[2, 0])).
Proof.
  unfold gimbal_lock_condition.
  rewrite <- branch_plus_iff, <- branch_minus_iff.
  destruct (dcm_to_euler_branch (A := RealArith) m); split; intros H;
    try discriminate; try reflexivity.
  - exfalso; apply H; now left.
  - exfalso; apply H; now right.
  - intros [H' | H']; discriminate.
Qed.

Lemma Rltb_weak_order (l : list R) : weak_order_on (A := RealArith) l.
Proof.
  unfold weak_order_on.
  change (@fltb RealArith) with Rltb.
  split; [| split].
  - intros x _. apply Rltb_false. lra.
  - intros x y z _ _ _ Hxy Hyz. apply Rltb_true in Hxy, Hyz.
    apply Rltb_true. lra.
  - intros x y z _ _ _ Hxz. apply Rltb_true in Hxz.
    destruct (Rlt_dec x y) as [H | H].
    + left. now apply Rltb_true.
    + right. apply Rltb_true. lra.
Qed.

Lemma dcm_to_euler_gimbal_lock_witness :
  near_plus_half_pi (A := RealArith) (asin (- pitch_up_dcm.[2, 0])) = true /\
  roll (MatrixToEuler pitch_up_dcm) = 0 /\
  pitch (MatrixToEuler pitch_up_dcm) = asin (- pitch_up_dcm.[2, 0]) /\
  yaw (MatrixToEuler pitch_up_dcm) =
    atan2 (pitch_up_dcm.[1, 2] - pitch_up_dcm.[0, 1])
          (pitch_up_dcm.[0, 2] + pitch_up_dcm.[1, 1]).
Proof.
  assert (H : near_plus_half_pi (A := RealArith)
                (asin (- pitch_up_dcm.[2, 0])) = true).
  { unfold near_plus_half_pi. real_arith. apply Rltb_true.
    replace (- -1) with 1 by lra. rewrite asin_1.
    replace (PI / 2 - PI / 2) with 0 by lra. rewrite Rabs_R0. lra. }
  split; [exact H |].
  destruct (dcm_to_euler_gimbal_lock (A := RealArith) pitch_up_dcm)
    as (_ & _ & _ & Hg & _ & _ & Hy & _).
  destruct (Hg (or_introl H)) as [Hroll Hpitch].
  split; [exact Hroll | split; [exact Hpitch |]].
  apply (Hy H). apply Rplus_0_r.
Defined.

(** C3. For every arithmetic and every matrix, [mavlink_dcm_to_euler]
    returns the pitch [theta = asin(-dcm[2][0])] as computed in
    [double] and narrowed to [float], in all three arms; whenever both
    gimbal-lock tests fail on it (which includes a pitch that is not a
    number) it returns [roll = atan2f(dcm[2][1], dcm[2][2])] and
    [yaw = atan2f(dcm[1][0], dcm[0][0])].  In exact arithmetic, for
    [|dcm[2][0]| <= 1], that pitch is the arcsine of [-dcm[2][0]] and
    lies in [[-PI/2, PI/2]]. *)
Theorem dcm_to_euler_pitch_and_regular :
  (forall (A : CArith) (m : Z -> Z -> float),
     let theta := to_float (c_asin (to_double (- m 2%Z 0%Z)%flt)) in
     let e := mavlink_dcm_to_euler m in
     pitch e = theta /\
     (near_plus_half_pi theta = false ->
      near_minus_half_pi theta = false ->
      roll e = atan2f (m 2%Z 1%Z) (m 2%Z 2%Z) /\
      yaw e = atan2f (m 1%Z 0%Z) (m 0%Z 0%Z))) /\
  (forall m : Z -> Z -> R,
     -1 <= m.[2, 0] <= 1 ->
     pitch (MatrixToEuler m) = asin (- m.[2, 0]) /\
     - (PI / 2) <= pitch (MatrixToEuler m) <= PI / 2).
Proof.
  split.
  - intros A m theta e. subst theta e. split.
    + apply dcm_to_euler_pitch.
    + apply dcm_to_euler_regular.
  - intros m _. unfold MatrixToEuler.
    rewrite (dcm_to_euler_pitch (A := RealArith)), dcm_theta_exact.
    split; [reflexivity | apply asin_bound].
Qed.

Lemma dcm_to_euler_pitch_and_regular_witness :
  near_plus_half_pi (A := RealArith) (asin (- identity_dcm.[2, 0])) = false /\
  near_minus_half_pi (A := RealArith) (asin (- identity_dcm.[2, 0])) = false /\
  -1 <= identity_dcm.[2, 0] <= 1 /\
  roll (MatrixToEuler identity_dcm) =
    atan2 identity_dcm.[2, 1] identity_dcm.[2, 2] /\
  yaw (MatrixToEuler identity_dcm) =
    atan2 identity_dcm.[1, 0] identity_dcm.[0, 0] /\
  - (PI / 2) <= pitch (MatrixToEuler identity_dcm) <= PI / 2.
Proof.
  pose proof PI2_1 as Hpi.
  assert (Hth : asin (- identity_dcm.[2, 0]) = 0).
  { real_arith. rewrite Ropp_0. apply asin_0. }
  assert (H1 : near_plus_half_pi (A := RealArith)
                 (asin (- identity_dcm.[2, 0])) = false).
  { rewrite Hth. unfold near_plus_half_pi. real_arith.
    apply Rltb_false. intros H. apply Rabs_def2 in H. lra. }
  assert (H2 : near_minus_half_pi (A := RealArith)
                 (asin (- identity_dcm.[2, 0])) = false).
  { rewrite Hth. unfold near_minus_half_pi. real_arith.
    apply Rltb_false. intros H. apply Rabs_def2 in H. lra. }
  assert (H3 : -1 <= identity_dcm.[2, 0] <= 1) by (real_arith; lra).
  destruct dcm_to_euler_pitch_and_regular as [Hgen Hex].
  destruct (Hgen RealArith identity_dcm) as [_ Hreg].
  destruct (Hreg H1 H2) as [Hr Hy].
  destruct (Hex identity_dcm H3) as [_ Hb].
  repeat (split; [assumption |]). exact Hb.
Defined.

(** C4. [QuaternionToMatrix] returns the standard expansion of the
    quaternion [(w, x, y, z)] into a direction-cosine matrix. *)
Theorem quaternion_to_dcm_entries (q : Z -> R) (dcm0 : Z -> Z -> R) :
  let w := q.[0] in
  let x := q.[1] in
  let y := q.[2] in
  let z := q.[3] in
  let R' := QuaternionToMatrix q dcm0 in
  R'.[0, 0] = w ^ 2 + x ^ 2 - y ^ 2 - z ^ 2 /\
  R'.[0, 1] = 2 * (x * y - w * z) /\
  R'.[0, 2] = 2 * (w * y + x * z) /\
  R'.[1, 0] = 2 * (x * y + w * z) /\
  R'.[1, 1] = w ^ 2 - x ^ 2 + y ^ 2 - z ^ 2 /\
  R'.[1, 2] = 2 * (y * z - w * x) /\
  R'.[2, 0] = 2 * (x * z - w * y) /\
  R'.[2, 1] = 2 * (w * x + y * z) /\
  R'.[2, 2] = w ^ 2 - x ^ 2 - y ^ 2 + z ^ 2.
Proof.
  intros w x y z R'. subst R' w x y z.
  unfold QuaternionToMatrix, mavlink_quaternion_to_dcm. real_arith.
  repeat split; ring.
Qed.

(** C5. [EulerToQuaternion] returns the half-angle products. *)
Theorem euler_to_quaternion_half_angles
    (roll pitch yaw : R) (q0 : Z -> R) :
  let q := EulerToQuaternion roll pitch yaw q0 in
  q.[0] = cos (roll / 2) * cos (pitch / 2) * cos (yaw / 2)
          + sin (roll / 2) * sin (pitch / 2) * sin (yaw / 2) /\
  q.[1] = sin (roll / 2) * cos (pitch / 2) * cos (yaw / 2)
          - cos (roll / 2) * sin (pitch / 2) * sin (yaw / 2) /\
  q.[2] = cos (roll / 2) * sin (pitch / 2) * cos (yaw / 2)
          + sin (roll / 2) * cos (pitch / 2) * sin (yaw / 2) /\
  q.[3] = cos (roll / 2) * cos (pitch / 2) * sin (yaw / 2)
          - sin (roll / 2) * sin (pitch / 2) * cos (yaw / 2).
Proof.
  intros q. subst q.
  unfold EulerToQuaternion, mavlink_euler_to_quaternion. real_arith.
  repeat split; reflexivity.
Qed.

Lemma sin_cos_sqr (x : R) : sin x * sin x + cos x * cos x = 1.
Proof. exact (sin2_cos2 x). Qed.

(** C6. The quaternion returned by [EulerToQuaternion] has unit norm
    for all angles; the routine contains no normalisation step, the
    norm is 1 by the Pythagorean identity alone. *)
Theorem euler_to_quaternion_unit_norm
    (roll pitch yaw : R) (q0 : Z -> R) :
  let q := EulerToQuaternion roll pitch yaw q0 in
  q.[0] ^ 2 + q.[1] ^ 2 + q.[2] ^ 2 + q.[3] ^ 2 = 1.
Proof.
  intros q. subst q.
  unfold EulerToQuaternion, mavlink_euler_to_quaternion. real_arith.
  set (c1 := cos (roll / 2)). set (s1 := sin (roll / 2)).
  set (c2 := cos (pitch / 2)). set (s2 := sin (pitch / 2)).
  set (c3 := cos (yaw / 2)). set (s3 := sin (yaw / 2)).
  transitivity ((s1 * s1 + c1 * c1) * (s2 * s2 + c2 * c2)
                * (s3 * s3 + c3 * c3)); [ring |].
  unfold c1, s1, c2, s2, c3, s3. rewrite !sin_cos_sqr. ring.
Qed.

Lemma atan2_0_1 : atan2 0 1 = 0.
Proof.
  unfold atan2. destruct (Rlt_dec 0 1) as [_ | H]; [| lra].
  replace (0 / 1) with 0 by lra. apply atan_0.
Qed.

(** C8. The identity elements map to one another exactly:
    [EulerToQuaternion(0,0,0) = (1,0,0,0)], [QuaternionToMatrix] of
    [(1,0,0,0)] is the identity matrix, and [MatrixToEuler] of the
    identity matrix is [(0,0,0)]. *)
Theorem identity_round_trip :
  (forall (q0 : Z -> R) (n : Z), (0 <= n < 4)%Z ->
     EulerToQuaternion 0 0 0 q0 n = quat 1 0 0 0 n) /\
  (forall (dcm0 : Z -> Z -> R) (i j : Z), (0 <= i < 3)%Z -> (0 <= j < 3)%Z ->
     QuaternionToMatrix (quat 1 0 0 0) dcm0 i j = identity_dcm i j) /\
  MatrixToEuler identity_dcm = Euler 0 0 0.
Proof.
  split; [| split].
  - intros q0 n Hn.
    assert (n = 0 \/ n = 1 \/ n = 2 \/ n = 3)%Z
      as [-> | [-> | [-> | ->]]] by lia;
      unfold EulerToQuaternion, mavlink_euler_to_quaternion; real_arith;
      replace (0 / 2) with 0 by lra; rewrite cos_0, sin_0; ring.
  - intros dcm0 i j Hi Hj.
    assert (i = 0 \/ i = 1 \/ i = 2)%Z as [-> | [-> | ->]] by lia;
      assert (j = 0 \/ j = 1 \/ j = 2)%Z as [-> | [-> | ->]] by lia;
      unfold QuaternionToMatrix, mavlink_quaternion_to_dcm; real_arith;
      ring.
  - assert (Hth : asin (- identity_dcm.[2, 0]) = 0).
    { real_arith. rewrite Ropp_0. apply asin_0. }
    assert (Hb : dcm_to_euler_branch (A := RealArith) identity_dcm = Regular).
    { apply branch_regular_iff. rewrite Hth.
      pose proof PI2_1 as Hpi. unfold gimbal_lock_condition.
      intros [H | H]; apply Rabs_def2 in H; lra. }
    unfold MatrixToEuler, mavlink_dcm_to_euler.
    rewrite Hb, dcm_theta_exact, Hth. real_arith.
    now rewrite atan2_0_1.
Qed.

Lemma identity_round_trip_witness :
  EulerToQuaternion 0 0 0 (quat 7 7 7 7) 0 = 1 /\
  QuaternionToMatrix (quat 1 0 0 0) half_turn_x_dcm 1 1 = 1 /\
  QuaternionToMatrix (quat 1 0 0 0) half_turn_x_dcm 1 2 = 0.
Proof.
  destruct identity_round_trip as (Hq & Hm & _).
  split; [| split].
  - apply (Hq (quat 7 7 7 7) 0%Z). lia.
  - apply (Hm half_turn_x_dcm 1%Z 1%Z); lia.
  - apply (Hm half_turn_x_dcm 1%Z 2%Z); lia.
Defined.

Lemma diag_scan_first_max (d : Z -> Z -> R) :
  first_max_diag d (diag_scan (A := RealArith) d).
Proof.
  unfold first_max_diag, diag_scan, diag_scan1. real_arith.
  destruct (Rltb (d 0%Z 0%Z) (d 1%Z 1%Z)) eqn:H1;
    [apply Rltb_true in H1 | apply Rltb_false in H1];
    match goal with |- context [Rltb ?a ?b] =>
      destruct (Rltb a b) eqn:H2;
        [apply Rltb_true in H2 | apply Rltb_false in H2]
    end;
    (split; [lia | split; intros j Hj;
      (assert (j = 0 \/ j = 1 \/ j = 2)%Z as [-> | [-> | ->]] by lia);
      try lia; lra]).
Qed.

Lemma dcm_to_quaternion_shepherd_witness :
  let d := half_turn_x_dcm in
  trace_of (A := RealArith) d = -1 /\
  (trace_of (A := RealArith) d >? flit_0)%flt = false /\
  weak_order_on (A := RealArith) [d.[0, 0]; d.[1, 1]; d.[2, 2]] /\
  exists (m' : mem (A := RealArith)) (i : Z),
    MatrixToQuaternion half_turn_mem = Some (tt, m') /\
    first_max_diag_by (A := RealArith) d i /\
    let j := ((i + 1) mod 3)%Z in
    let k := ((i + 2) mod 3)%Z in
    let s := sqrt (d i i - d j j - d k k + 1) in
    quaternion m' (i + 1)%Z = s * 0.5 /\
    quaternion m' (j + 1)%Z = (d i j + d j i) * (0.5 / s) /\
    quaternion m' (k + 1)%Z = (d k i + d i k) * (0.5 / s) /\
    quaternion m' 0%Z = (d k j - d j k) * (0.5 / s).
Proof.
  intros d.
  assert (H0 : trace_of (A := RealArith) d = -1).
  { unfold trace_of. subst d. real_arith. lra. }
  assert (H : (trace_of (A := RealArith) d >? flit_0)%flt = false).
  { rewrite H0. real_arith. apply Rltb_false. lra. }
  assert (Hw := Rltb_weak_order [d.[0, 0]; d.[1, 1]; d.[2, 2]]).
  split; [exact H0 | split; [exact H | split; [exact Hw |]]].
  destruct (dcm_to_quaternion_shepherd (A := RealArith) half_turn_mem)
    as (m' & Hrun & _ & Hneg).
  destruct (Hneg H) as (i & _ & _ & Hmax & Hq).
  exists m', i. split; [exact Hrun | split; [exact (Hmax Hw) | exact Hq]].
Defined.

(** *** [atan2] recovers an angle from its sine and cosine *)

(** The three sign patterns of the second argument. *)
Lemma atan2_pos (y x : R) : 0 < x -> atan2 y x = atan (y / x).
Proof.
  intros Hx. unfold atan2. destruct (Rlt_dec 0 x); [reflexivity | lra].
Qed.

Lemma atan2_neg_nonneg (y x : R) :
  x < 0 -> 0 <= y -> atan2 y x = atan (y / x) + PI.
Proof.
  intros Hx Hy. unfold atan2.
  destruct (Rlt_dec 0 x); [lra |].
  destruct (Rlt_dec x 0); [| lra].
  destruct (Rle_dec 0 y); [reflexivity | lra].
Qed.

Lemma atan2_neg_neg (y x : R) :
  x < 0 -> y < 0 -> atan2 y x = atan (y / x) - PI.
Proof.
  intros Hx Hy. unfold atan2.
  destruct (Rlt_dec 0 x); [lra |].
  destruct (Rlt_dec x 0); [| lra].
  destruct (Rle_dec 0 y); [lra | reflexivity].
Qed.

Lemma atan2_zero (y : R) :
  atan2 y 0 = if Rlt_dec 0 y then PI / 2
              else if Rlt_dec y 0 then - (PI / 2) else 0.
Proof.
  unfold atan2. destruct (Rlt_dec 0 0); [lra | reflexivity].
Qed.

(** A positive common factor does not change the angle. *)
Lemma atan2_scale (c y x : R) :
  0 < c -> atan2 (y * c) (x * c) = atan2 y x.
Proof.
  intros Hc.
  destruct (Rtotal_order x 0) as [Hx | [Hx | Hx]].
  - assert (x * c < 0) by nra.
    assert (Hq : y * c / (x * c) = y / x) by (field; lra).
    destruct (Rle_dec 0 y) as [Hy | Hy].
    + rewrite !atan2_neg_nonneg by nra. now rewrite Hq.
    + rewrite !atan2_neg_neg by nra. now rewrite Hq.
  - subst x. rewrite Rmult_0_l, !atan2_zero.
    destruct (Rlt_dec 0 (y * c)), (Rlt_dec 0 y); try nra; try reflexivity.
    destruct (Rlt_dec (y * c) 0), (Rlt_dec y 0); try nra; reflexivity.
  - rewrite !atan2_pos by nra. f_equal. field. lra.
Qed.

Lemma atan2_sin_cos (r : R) :
  - PI < r <= PI -> atan2 (sin r) (cos r) = r.
Proof.
  intros [Hlo Hhi]. pose proof PI_RGT_0 as Hpi.
  destruct (Rtotal_order r (PI / 2)) as [Hr | [Hr | Hr]].
  - destruct (Rtotal_order r (- (PI / 2))) as [Hr' | [Hr' | Hr']].
    + (* -PI < r < -PI/2 *)
      assert (Hc : 0 < cos (r + PI)) by (apply cos_gt_0; lra).
      assert (Hs : 0 < sin (r + PI)) by (apply sin_gt_0; lra).
      rewrite neg_cos in Hc. rewrite neg_sin in Hs.
      rewrite atan2_neg_neg by lra.
      replace (sin r / cos r) with (tan (r + PI)).
      * rewrite atan_tan by lra. lra.
      * unfold tan. rewrite neg_sin, neg_cos. field. lra.
    + (* r = -PI/2 *)
      subst r. rewrite cos_neg, sin_neg, cos_PI2, sin_PI2, atan2_zero.
      repeat match goal with
        | |- context [Rlt_dec ?a ?b] => destruct (Rlt_dec a b)
        end; lra.
    + (* -PI/2 < r < PI/2 *)
      assert (Hc : 0 < cos r) by (apply cos_gt_0; lra).
      rewrite atan2_pos by assumption.
      fold (tan r). apply atan_tan. lra.
  - (* r = PI/2 *)
    subst r. rewrite cos_PI2, sin_PI2, atan2_zero.
    destruct (Rlt_dec 0 1); [reflexivity | lra].
  - (* PI/2 < r <= PI *)
    assert (Hc : cos r < 0) by (apply cos_lt_0; lra).
    assert (Hs : 0 <= sin r) by (apply sin_ge_0; lra).
    assert (Es : sin r = - sin (r - PI)).
    { rewrite <- neg_sin. f_equal. lra. }
    assert (Ec : cos r = - cos (r - PI)).
    { rewrite <- neg_cos. f_equal. lra. }
    rewrite atan2_neg_nonneg by assumption.
    replace (sin r / cos r) with (tan (r - PI)).
    + rewrite atan_tan by lra. lra.
    + unfold tan. rewrite Es, Ec. field. lra.
Qed.

(** Sine and cosine have period [2 PI], for integer multiples. *)
Lemma sin_cos_period_Z (x : R) (k : Z) :
  sin (x + 2 * IZR k * PI) = sin x /\ cos (x + 2 * IZR k * PI) = cos x.
Proof.
  destruct (Z_le_gt_dec 0 k) as [Hk | Hk].
  - rewrite <- (Z2Nat.id k Hk), <- INR_IZR_INZ.
    split; [apply sin_period | apply cos_period].
  - assert (Hn : (0 <= - k)%Z) by lia.
    set (x' := x + 2 * IZR k * PI).
    assert (Hx : x = x' + 2 * INR (Z.to_nat (- k)) * PI).
    { rewrite INR_IZR_INZ, (Z2Nat.id _ Hn), opp_IZR. unfold x'. ring. }
    clearbody x'. subst x. rewrite sin_period, cos_period.
    split; reflexivity.
Qed.

(** Every angle has a representative in (-PI, PI]. *)
Lemma wrap_exists (r : R) :
  exists k : Z, - PI < r + 2 * IZR k * PI <= PI.
Proof.
  pose proof PI_RGT_0 as Hpi.
  set (t := (PI - r) / (2 * PI)).
  destruct (archimed t) as [Hup1 Hup2].
  exists (up t - 1)%Z. rewrite minus_IZR.
  assert (Ht : t * (2 * PI) = PI - r) by (unfold t; field; lra).
  split; nra.
Qed.

Lemma atan2_sin_cos_wrap (r : R) :
  exists k : Z,
    atan2 (sin r) (cos r) = r + 2 * IZR k * PI /\
    - PI < atan2 (sin r) (cos r) <= PI.
Proof.
  destruct (wrap_exists r) as [k Hk]. exists k.
  destruct (sin_cos_period_Z r k) as [Hs Hc].
  rewrite <- Hs, <- Hc, atan2_sin_cos by assumption.
  split; [reflexivity | assumption].
Qed.

(** Away from the two gimbal-lock windows [MatrixToEuler] undoes
    [EulerToMatrix] up to the wrap of [atan2]. *)
Lemma dcm_to_euler_of_euler_to_dcm (r p y : R) (dcm0 : Z -> Z -> R) :
  - (PI / 2) + 1.0e-3 <= p <= PI / 2 - 1.0e-3 ->
  MatrixToEuler (EulerToMatrix r p y dcm0) =
  Euler (atan2 (sin r) (cos r)) p (atan2 (sin y) (cos y)).
Proof.
  intros Hp.
  set (m := EulerToMatrix r p y dcm0).
  assert (E20 : m.[2, 0] = - sin p) by reflexivity.
  assert (E21 : m.[2, 1] = sin r * cos p) by reflexivity.
  assert (E22 : m.[2, 2] = cos r * cos p) by reflexivity.
  assert (E10 : m.[1, 0] = cos p * sin y) by reflexivity.
  assert (E00 : m.[0, 0] = cos p * cos y) by reflexivity.
  clearbody m.
  assert (Hc : 0 < cos p) by (apply cos_gt_0; lra).
  assert (Hth : asin (- m.[2, 0]) = p).
  { rewrite E20, Ropp_involutive. apply asin_sin. lra. }
  assert (Hb : dcm_to_euler_branch (A := RealArith) m = Regular).
  { apply branch_regular_iff. rewrite Hth. unfold gimbal_lock_condition.
    intros [H | H]; apply Rabs_def2 in H; lra. }
  unfold MatrixToEuler, mavlink_dcm_to_euler.
  rewrite Hb, dcm_theta_exact, Hth. real_arith.
  rewrite E21, E22, E10, E00.
  rewrite atan2_scale by assumption.
  rewrite (Rmult_comm (cos p) (sin y)), (Rmult_comm (cos p) (cos y)).
  rewrite atan2_scale by assumption.
  reflexivity.
Qed.

(** C7, as stated for any margin, fails inside the gimbal-lock
    window: a pitch
    [5e-4] short of [PI/2] lies strictly inside
    [(-PI/2 + eps, PI/2 - eps)] for [eps = 1e-4], yet the roll [1/2]
    comes back as 0, which is not [1/2] modulo [2 PI]. *)
Lemma euler_dcm_round_trip_small_margin :
  let eps := 1.0e-4 in
  let p := PI / 2 - 5.0e-4 in
  let e := MatrixToEuler (EulerToMatrix (1 / 2) p 0 identity_dcm) in
  0 < eps /\
  - (PI / 2) + eps < p < PI / 2 - eps /\
  roll e = 0 /\
  ~ (exists k : Z, roll e = 1 / 2 + 2 * IZR k * PI).
Proof.
  intros eps p e. pose proof PI2_3_2 as Hpi.
  assert (Hroll : roll e = 0).
  { subst e. set (m := EulerToMatrix (1 / 2) p 0 identity_dcm).
    assert (E20 : m.[2, 0] = - sin p) by reflexivity.
    clearbody m.
    assert (Hth : asin (- m.[2, 0]) = p).
    { rewrite E20, Ropp_involutive. apply asin_sin. unfold p. lra. }
    assert (Hb : dcm_to_euler_branch (A := RealArith) m = GimbalPlus).
    { apply branch_plus_iff. rewrite Hth. unfold p.
      apply Rabs_def1; lra. }
    unfold MatrixToEuler, mavlink_dcm_to_euler. rewrite Hb. reflexivity. }
  split; [unfold eps; lra |].
  split; [unfold eps, p; lra |].
  split; [exact Hroll |].
  rewrite Hroll. intros [k Hk].
  destruct (Z_le_gt_dec 0 k) as [Hk0 | Hk0].
  - apply IZR_le in Hk0. nra.
  - assert (Hk1 : (k <= -1)%Z) by lia. apply IZR_le in Hk1. nra.
Qed.

(** C7 (amended).  For a pitch [p] strictly inside
    [(-PI/2 + eps, PI/2 - eps)] with a margin [eps] of at least [2e-3],
    twice the gimbal-lock threshold, [MatrixToEuler (EulerToMatrix r p
    y)] returns the pitch [p], and a roll and a yaw that are [r] and
    [y] brought into [(-PI, PI]] by a multiple of [2 PI] (so [r] and
    [y] themselves when they already lie there).  The margin keeps the
    computed pitch out of the [1e-3] windows also after the rounding of
    [sin p] and of the arcsine. *)
Theorem euler_dcm_round_trip (r p y eps : R) (dcm0 : Z -> Z -> R) :
  2.0e-3 <= eps ->
  - (PI / 2) + eps < p < PI / 2 - eps ->
  let e := MatrixToEuler (EulerToMatrix r p y dcm0) in
  pitch e = p /\
  (exists k : Z, roll e = r + 2 * IZR k * PI) /\
  - PI < roll e <= PI /\
  (exists k : Z, yaw e = y + 2 * IZR k * PI) /\
  - PI < yaw e <= PI /\
  (- PI < r <= PI -> roll e = r) /\
  (- PI < y <= PI -> yaw e = y).
Proof.
  intros Heps Hp e. subst e.
  rewrite dcm_to_euler_of_euler_to_dcm by lra. cbn [roll pitch yaw].
  destruct (atan2_sin_cos_wrap r) as (kr & Hr & Hrb).
  destruct (atan2_sin_cos_wrap y) as (ky & Hy & Hyb).
  split; [reflexivity |].
  split; [now exists kr |]. split; [exact Hrb |].
  split; [now exists ky |]. split; [exact Hyb |].
  split; apply atan2_sin_cos.
Qed.

Lemma euler_dcm_round_trip_witness :
  2.0e-3 <= 2.0e-3 /\
  - (PI / 2) + 2.0e-3 < 1 / 4 < PI / 2 - 2.0e-3 /\
  let e := MatrixToEuler (EulerToMatrix (1 / 2) (1 / 4) (-1) identity_dcm) in
  roll e = 1 / 2 /\ pitch e = 1 / 4 /\ yaw e = -1.
Proof.
  pose proof PI2_1 as Hpi.
  assert (H1 : 2.0e-3 <= 2.0e-3) by lra.
  assert (H2 : - (PI / 2) + 2.0e-3 < 1 / 4 < PI / 2 - 2.0e-3) by lra.
  split; [exact H1 | split; [exact H2 |]].
  destruct (euler_dcm_round_trip (1 / 2) (1 / 4) (-1) 2.0e-3 identity_dcm
              H1 H2) as (Hp & _ & _ & _ & _ & Hr & Hy).
  cbv zeta. split; [apply Hr; lra | split; [exact Hp | apply Hy; lra]].
Defined.

(** *** A sample run

    The half turn about X has trace -1, so the scan runs; it selects
    subscript 0 and the result is the quaternion (0, 1, 0, 0), stored
    in the order x, y, z, w. *)
Example half_turn_quaternion :
  exists m' : mem (A := RealArith),
    MatrixToQuaternion half_turn_mem = Some (tt, m') /\
    quaternion m' 0%Z = 0 /\ quaternion m' 1%Z = 1 /\
    quaternion m' 2%Z = 0 /\ quaternion m' 3%Z = 0 /\
    stores (accesses m') = [1; 2; 3; 0]%Z.
Proof.
  assert (Hlt : forall a b : R, ~ a < b -> Rltb a b = false).
  { intros a b. apply Rltb_false. }
  assert (Htr : (trace_of (A := RealArith) half_turn_x_dcm >? flit_0)%flt
                = false).
  { unfold trace_of. real_arith. apply Hlt. lra. }
  assert (Hscan : diag_scan (A := RealArith) half_turn_x_dcm = 0%Z).
  { unfold diag_scan, diag_scan1. real_arith.
    rewrite !(Hlt 1 (-1)) by lra. reflexivity. }
  eexists. split.
  - unfold MatrixToQuaternion. now apply dcm_to_quaternion_run_nonpos.
  - cbn [quaternion accesses dcm half_turn_mem].
    unfold quaternion_nonpos, log_nonpos. rewrite Hscan.
    eval_subscripts. real_arith.
    replace (1 - -1 - -1 + 1) with (2 * 2) by lra.
    rewrite sqrt_square by lra.
    repeat split; lra.
Qed.

End ExactArithmetic.

(** * Overlapping arguments *)

Section FlatSteps.
Context {A : CArith}.

Local Open Scope Z_scope.

Lemma fbind_assoc {X Y W : Type} (c : FM X) (f : X -> FM Y) (g : Y -> FM W)
    (h : heap) :
  fbind (fbind c f) g h = fbind c (fun x => fbind (f x) g) h.
Proof. unfold fbind. destruct (c h) as [[x h'] |]; reflexivity. Qed.

Lemma fbind_ret {X Y : Type} (x : X) (k : X -> FM Y) (h : heap) :
  fbind (fret x) k h = k x h.
Proof. reflexivity. Qed.

Lemma fbind_load {Y : Type} (dcm i j : Z) (k : float -> FM Y) (h : heap) :
  in_dcm i j = true ->
  fbind (load_dcm_at dcm i j) k h = k (h (dcm_cell dcm i j)) h.
Proof. intros H. unfold fbind, load_dcm_at. now rewrite H. Qed.

Lemma fbind_store {Y : Type} (quaternion n : Z) (v : float)
    (k : unit -> FM Y) (h : heap) :
  in_quaternion n = true ->
  fbind (store_quaternion_at quaternion n v) k h =
  k tt (h <[quaternion_cell quaternion n := v]>).
Proof. intros H. unfold fbind, store_quaternion_at. now rewrite H. Qed.

End FlatSteps.

(** Evaluates addresses and the cells read at literal addresses. *)
Ltac eval_cells :=
  unfold dcm_cell, quaternion_cell, upd;
  repeat match goal with
    | |- context [Z.mul ?a ?b] =>
        is_Z_literal a; is_Z_literal b;
        let v := eval vm_compute in (Z.mul a b) in
        change (Z.mul a b) with v
    | |- context [Z.add ?a ?b] =>
        is_Z_literal a; is_Z_literal b;
        let v := eval vm_compute in (Z.add a b) in
        change (Z.add a b) with v
    | |- context [Z.rem ?a ?b] =>
        is_Z_literal a; is_Z_literal b;
        let v := eval vm_compute in (Z.rem a b) in
        change (Z.rem a b) with v
    | |- context [Z.eqb ?a ?b] =>
        is_Z_literal a; is_Z_literal b;
        let v := eval vm_compute in (Z.eqb a b) in
        change (Z.eqb a b) with v
    | |- context [shared_buf ?a] =>
        is_Z_literal a;
        let v := eval cbv beta iota delta [shared_buf] in (shared_buf a) in
        change (shared_buf a) with v
    end;
  cbv beta iota.

(** Runs the loads and stores at the head of a program. *)
Ltac flat_steps :=
  repeat first
    [ rewrite fbind_assoc
    | rewrite fbind_ret
    | rewrite fbind_load by reflexivity
    | rewrite fbind_store by reflexivity ];
  eval_cells.

Section OverlappingArguments.

(** Runs the routine on [shared_buf] with the quaternion array at cell
    [pq] of the same store, up to the last store. *)
Ltac run_on_shared_buf :=
  let Hlt := fresh "Hlt" in
  assert (Hlt : forall a b : R, ~ a < b -> Rltb a b = false)
    by (intros a b; apply Rltb_false);
  unfold mavlink_dcm_to_quaternion_at; flat_steps;
  change (@fltb RealArith) with Rltb; change (@flit_0 RealArith) with 0;
  change (@fadd RealArith) with Rplus;
  rewrite (Hlt 0 (1 + -1 + -1)) by lra;
  unfold ffor_range; change (Z.to_nat (3 - 1)) with 2%nat;
  unfold ffor_loop, max_diag_body_at; flat_steps;
  change (@fltb RealArith) with Rltb;
  rewrite !(Hlt 1 (-1)) by lra; flat_steps;
  rewrite !(Hlt 1 (-1)) by lra; flat_steps.

(** C9, as stated for every call, fails when the arguments overlap.
    With one buffer passed as both arguments the call overwrites the
    matrix: [{1,0,0, 0,-1,0, 0,0,-1}] becomes
    [{0, 1, 0.25, 0.0625, -1,0, 0,0,-1}], the later stores being
    computed from entries the earlier ones replaced.  The entry
    [dcm[0][0]] is 1 before the call and 0 after it. *)
Lemma dcm_to_quaternion_overlap_modifies_dcm :
  exists h' : heap (A := RealArith),
    mavlink_dcm_to_quaternion_at (A := RealArith) 0 0 shared_buf
    = Some (tt, h') /\
    h' 0%Z = 0 /\ h' 1%Z = 1 /\ h' 2%Z = 0.25 /\ h' 3%Z = 0.0625 /\
    shared_buf (dcm_cell 0 0 0) = 1 /\
    h' (dcm_cell 0 0 0) <> shared_buf (dcm_cell 0 0 0).
Proof.
  eexists. run_on_shared_buf.
  split; [reflexivity |]. eval_cells. real_arith.
  replace (1 - -1 - -1 + 1) with (2 * 2) by lra.
  rewrite sqrt_square by lra.
  repeat split; lra.
Qed.

Lemma dcm_to_quaternion_frame_witness :
  blocks_apart 0 9 /\
  exists h' : heap (A := RealArith),
    mavlink_dcm_to_quaternion_at (A := RealArith) 0 9 shared_buf
    = Some (tt, h') /\
    h' 13%Z = shared_buf 13%Z /\
    h' (dcm_cell 0 0 0) = shared_buf (dcm_cell 0 0 0) /\
    h' (dcm_cell 0 2 2) = shared_buf (dcm_cell 0 2 2).
Proof.
  assert (H : blocks_apart 0 9) by (unfold blocks_apart; lia).
  split; [exact H |].
  destruct (dcm_to_quaternion_frame (A := RealArith) 0 9 shared_buf)
    as (h' & Hrun & Hout & Hdcm).
  exists h'. split; [exact Hrun |]. split; [| split].
  - apply Hout. unfold in_quaternion_block. lia.
  - apply (Hdcm H); lia.
  - apply (Hdcm H); lia.
Defined.

End OverlappingArguments.

(** * Further properties of the conversions *)

(** Case analysis on a subscript of a three- or four-element array. *)
Ltac case_sub3 i H :=
  let E := fresh in
  assert (E : (i = 0 \/ i = 1 \/ i = 2)%Z) by lia;
  clear H; destruct E as [-> | [-> | ->]].

Ltac case_sub4 n H :=
  let E := fresh in
  assert (E : (n = 0 \/ n = 1 \/ n = 2 \/ n = 3)%Z) by lia;
  clear H; destruct E as [-> | [-> | [-> | ->]]].

Section QuaternionMatrix.

(** X1. For every quaternion, unit or not, the rows of
    [QuaternionToMatrix q] are pairwise orthogonal and each has squared
    length [|q|^4]; so do the columns; the determinant is [|q|^6].  For
    a unit quaternion the matrix is therefore a proper rotation. *)
Theorem quaternion_to_dcm_orthogonal (q : Z -> R) (dcm0 : Z -> Z -> R) :
  let m := QuaternionToMatrix q dcm0 in
  (forall i k : Z, (0 <= i < 3)%Z -> (0 <= k < 3)%Z ->
     dot_rows m i k = quat_norm2 q ^ 2 * delta i k) /\
  (forall i k : Z, (0 <= i < 3)%Z -> (0 <= k < 3)%Z ->
     dot_cols m i k = quat_norm2 q ^ 2 * delta i k) /\
  det3 m = quat_norm2 q ^ 3.
Proof.
  intros m. subst m. split; [| split].
  - intros i k Hi Hk. case_sub3 i Hi; case_sub3 k Hk;
      unfold dot_rows, quat_norm2, delta, QuaternionToMatrix,
        mavlink_quaternion_to_dcm; real_arith; ring.
  - intros i k Hi Hk. case_sub3 i Hi; case_sub3 k Hk;
      unfold dot_cols, quat_norm2, delta, QuaternionToMatrix,
        mavlink_quaternion_to_dcm; real_arith; ring.
  - unfold det3, quat_norm2, QuaternionToMatrix, mavlink_quaternion_to_dcm.
    real_arith. ring.
Qed.

Lemma quaternion_to_dcm_orthogonal_witness :
  dot_rows (QuaternionToMatrix (quat 1 2 3 4) identity_dcm) 0 1 = 0 /\
  dot_cols (QuaternionToMatrix (quat 1 2 3 4) identity_dcm) 2 2
  = quat_norm2 (quat 1 2 3 4) ^ 2.
Proof.
  destruct (quaternion_to_dcm_orthogonal (quat 1 2 3 4) identity_dcm)
    as (Hr & Hc & _).
  split.
  - rewrite (Hr 0%Z 1%Z) by lia. unfold delta. cbn. ring.
  - rewrite (Hc 2%Z 2%Z) by lia. unfold delta. cbn. ring.
Defined.

(** X2. Scaling the quaternion by [c] scales every entry of the matrix
    by [c^2]: a non-unit quaternion gives a scaled rotation matrix, and
    [q] and [-q] give the same matrix. *)
Theorem quaternion_to_dcm_scaling
    (q q' : Z -> R) (c : R) (dcm0 dcm0' : Z -> Z -> R) :
  (forall n : Z, (0 <= n < 4)%Z -> q' n = c * q n) ->
  forall i j : Z, (0 <= i < 3)%Z -> (0 <= j < 3)%Z ->
    QuaternionToMatrix q' dcm0' i j = c ^ 2 * QuaternionToMatrix q dcm0 i j.
Proof.
  intros Hq i j Hi Hj.
  assert (H0 := Hq 0%Z ltac:(lia)). assert (H1 := Hq 1%Z ltac:(lia)).
  assert (H2 := Hq 2%Z ltac:(lia)). assert (H3 := Hq 3%Z ltac:(lia)).
  case_sub3 i Hi; case_sub3 j Hj;
    unfold QuaternionToMatrix, mavlink_quaternion_to_dcm; real_arith;
    rewrite H0, H1, H2, H3; ring.
Qed.

Lemma quaternion_to_dcm_scaling_witness :
  (forall n : Z, (0 <= n < 4)%Z ->
     quat (-1) (-2) (-3) (-4) n = -1 * quat 1 2 3 4 n) /\
  QuaternionToMatrix (quat (-1) (-2) (-3) (-4)) identity_dcm 0 1
  = (-1) ^ 2 * QuaternionToMatrix (quat 1 2 3 4) identity_dcm 0 1.
Proof.
  assert (H : forall n : Z, (0 <= n < 4)%Z ->
                quat (-1) (-2) (-3) (-4) n = -1 * quat 1 2 3 4 n).
  { intros n Hn. case_sub4 n Hn; cbn; lra. }
  split; [exact H |].
  apply (quaternion_to_dcm_scaling _ _ (-1) identity_dcm identity_dcm H);
    lia.
Defined.

End QuaternionMatrix.

Section EulerQuaternionMatrix.

Lemma cos_sin_double (t : R) :
  cos t = cos (t / 2) * cos (t / 2) - sin (t / 2) * sin (t / 2) /\
  sin t = 2 * sin (t / 2) * cos (t / 2).
Proof.
  rewrite <- cos_2a, <- sin_2a.
  replace (2 * (t / 2)) with t by field. split; reflexivity.
Qed.

Lemma euler_quaternion_dcm_entries
    (r p y : R) (q0 : Z -> R) (dcm0 dcm0' : Z -> Z -> R) (i j : Z) :
  (0 <= i < 3)%Z -> (0 <= j < 3)%Z ->
  QuaternionToMatrix (EulerToQuaternion r p y q0) dcm0 i j =
  EulerToMatrix r p y dcm0' i j.
Proof.
  intros Hi Hj.
  destruct (cos_sin_double r) as [Cr Sr].
  destruct (cos_sin_double p) as [Cp Sp].
  destruct (cos_sin_double y) as [Cy Sy].
  pose proof (sin_cos_sqr (r / 2)) as H1.
  pose proof (sin_cos_sqr (p / 2)) as H2.
  pose proof (sin_cos_sqr (y / 2)) as H3.
  case_sub3 i Hi; case_sub3 j Hj;
    unfold QuaternionToMatrix, EulerToQuaternion, EulerToMatrix,
      mavlink_quaternion_to_dcm, mavlink_euler_to_quaternion,
      mavlink_euler_to_dcm; real_arith;
    rewrite ?Cr, ?Sr, ?Cp, ?Sp, ?Cy, ?Sy;
    clear Cr Sr Cp Sp Cy Sy;
    generalize dependent (cos (r / 2)); generalize dependent (sin (r / 2));
    generalize dependent (cos (p / 2)); generalize dependent (sin (p / 2));
    generalize dependent (cos (y / 2)); generalize dependent (sin (y / 2));
    intros; nsatz.
Qed.

(** X3. Converting Euler angles to a quaternion and the quaternion to a
    matrix gives, entry for entry, the matrix that [EulerToMatrix]
    builds directly from the angles. *)
Theorem euler_quaternion_dcm_commute
    (r p y : R) (q0 : Z -> R) (dcm0 dcm0' : Z -> Z -> R) :
  forall i j : Z, (0 <= i < 3)%Z -> (0 <= j < 3)%Z ->
    QuaternionToMatrix (EulerToQuaternion r p y q0) dcm0 i j =
    EulerToMatrix r p y dcm0' i j.
Proof. intros i j. apply euler_quaternion_dcm_entries. Qed.

Lemma euler_quaternion_dcm_commute_witness :
  QuaternionToMatrix (EulerToQuaternion 1 2 3 (quat 0 0 0 0)) identity_dcm 2 0
  = EulerToMatrix 1 2 3 identity_dcm 2 0.
Proof.
  apply (euler_quaternion_dcm_commute 1 2 3 (quat 0 0 0 0)
           identity_dcm identity_dcm 2%Z 0%Z); lia.
Defined.

(** X4. For all angles [EulerToMatrix] builds a proper rotation matrix:
    rows orthonormal, columns orthonormal, determinant 1. *)
Theorem euler_to_dcm_rotation (r p y : R) (dcm0 : Z -> Z -> R) :
  let m := EulerToMatrix r p y dcm0 in
  (forall i k : Z, (0 <= i < 3)%Z -> (0 <= k < 3)%Z ->
     dot_rows m i k = delta i k) /\
  (forall i k : Z, (0 <= i < 3)%Z -> (0 <= k < 3)%Z ->
     dot_cols m i k = delta i k) /\
  det3 m = 1.
Proof.
  intros m. subst m.
  pose proof (sin_cos_sqr r) as H1.
  pose proof (sin_cos_sqr p) as H2.
  pose proof (sin_cos_sqr y) as H3.
  split; [| split].
  - intros i k Hi Hk. case_sub3 i Hi; case_sub3 k Hk;
      unfold dot_rows, delta, EulerToMatrix, mavlink_euler_to_dcm;
      real_arith;
      generalize dependent (cos r); generalize dependent (sin r);
      generalize dependent (cos p); generalize dependent (sin p);
      generalize dependent (cos y); generalize dependent (sin y);
      intros; nsatz.
  - intros i k Hi Hk. case_sub3 i Hi; case_sub3 k Hk;
      unfold dot_cols, delta, EulerToMatrix, mavlink_euler_to_dcm;
      real_arith;
      generalize dependent (cos r); generalize dependent (sin r);
      generalize dependent (cos p); generalize dependent (sin p);
      generalize dependent (cos y); generalize dependent (sin y);
      intros; nsatz.
  - unfold det3, EulerToMatrix, mavlink_euler_to_dcm. real_arith.
    generalize dependent (cos r); generalize dependent (sin r).
    generalize dependent (cos p); generalize dependent (sin p).
    generalize dependent (cos y); generalize dependent (sin y).
    intros; nsatz.
Qed.

Lemma euler_to_dcm_rotation_witness :
  dot_rows (EulerToMatrix 1 2 3 identity_dcm) 0 1 = 0 /\
  dot_cols (EulerToMatrix 1 2 3 identity_dcm) 1 1 = 1.
Proof.
  destruct (euler_to_dcm_rotation 1 2 3 identity_dcm) as (Hr & Hc & _).
  split.
  - apply (Hr 0%Z 1%Z); lia.
  - apply (Hc 1%Z 1%Z); lia.
Defined.

End EulerQuaternionMatrix.

(** ** What the routines read *)

Section ReadSets.
Context {A : CArith}.

Local Open Scope Z_scope.

(** [mavlink_dcm_to_euler] reads the matrix only inside its 3x3
    extent. *)
Lemma dcm_to_euler_ext (m1 m2 : Z -> Z -> float) :
  (forall i j : Z, 0 <= i < 3 -> 0 <= j < 3 -> m1 i j = m2 i j) ->
  mavlink_dcm_to_euler m1 = mavlink_dcm_to_euler m2.
Proof.
  intros H.
  unfold mavlink_dcm_to_euler, dcm_to_euler_branch, dcm_theta.
  rewrite !(H _ _) by lia. reflexivity.
Qed.

(** After its nine stores [mavlink_quaternion_to_dcm] has overwritten
    every entry of the matrix with a value computed from
    [quaternion[0..3]] alone. *)
Lemma quaternion_to_dcm_ext
    (q1 q2 : Z -> float) (d1 d2 : Z -> Z -> float) (i j : Z) :
  (forall n : Z, 0 <= n < 4 -> q1 n = q2 n) ->
  0 <= i < 3 -> 0 <= j < 3 ->
  mavlink_quaternion_to_dcm q1 d1 i j = mavlink_quaternion_to_dcm q2 d2 i j.
Proof.
  intros Hq Hi Hj. unfold mavlink_quaternion_to_dcm.
  rewrite !(Hq _) by lia.
  case_sub3 i Hi; case_sub3 j Hj; reflexivity.
Qed.

(** X5. [mavlink_quaternion_to_euler] returns angles that depend only
    on the four components [quaternion[0..3]]: the content its local,
    uninitialised matrix had on entry has no influence, because every
    entry is stored before it is read. *)
Theorem quaternion_to_euler_reads
    (q1 q2 : Z -> float) (dcm1 dcm2 : Z -> Z -> float) :
  (forall n : Z, 0 <= n < 4 -> q1 n = q2 n) ->
  mavlink_quaternion_to_euler q1 dcm1 = mavlink_quaternion_to_euler q2 dcm2.
Proof.
  intros Hq. unfold mavlink_quaternion_to_euler.
  apply dcm_to_euler_ext. intros i j Hi Hj.
  now apply quaternion_to_dcm_ext.
Qed.

End ReadSets.

Lemma quaternion_to_euler_reads_witness :
  (forall n : Z, (0 <= n < 4)%Z -> quat 1 0 0 0 n = identity_dcm 0%Z n) /\
  QuaternionToEuler (quat 1 0 0 0) identity_dcm =
  QuaternionToEuler (identity_dcm 0%Z) half_turn_x_dcm.
Proof.
  assert (H : forall n : Z, (0 <= n < 4)%Z ->
                quat 1 0 0 0 n = identity_dcm 0%Z n).
  { intros n Hn. case_sub4 n Hn; reflexivity. }
  split; [exact H |].
  exact (quaternion_to_euler_reads (A := RealArith)
           (quat 1 0 0 0) (identity_dcm 0%Z) identity_dcm half_turn_x_dcm H).
Defined.

Section QuaternionEuler.

(** X6. Away from gimbal lock, [QuaternionToEuler] undoes
    [EulerToQuaternion]: for a pitch [p] strictly inside
    [(-PI/2 + eps, PI/2 - eps)] with a margin [eps >= 2e-3], twice the
    gimbal-lock threshold (so that the rounding of the quaternion and
    of the matrix entry cannot bring the computed pitch into a [1e-3]
    window), the pitch comes back exactly, roll and yaw come back
    modulo [2 PI] inside [(-PI, PI]], hence exactly when they already
    lie there. *)
Theorem quaternion_euler_round_trip
    (r p y eps : R) (q0 : Z -> R) (dcm_local : Z -> Z -> R) :
  2.0e-3 <= eps ->
  - (PI / 2) + eps < p < PI / 2 - eps ->
  let e := QuaternionToEuler (EulerToQuaternion r p y q0) dcm_local in
  pitch e = p /\
  (exists k : Z, roll e = r + 2 * IZR k * PI) /\
  - PI < roll e <= PI /\
  (exists k : Z, yaw e = y + 2 * IZR k * PI) /\
  - PI < yaw e <= PI /\
  (- PI < r <= PI -> roll e = r) /\
  (- PI < y <= PI -> yaw e = y).
Proof.
  intros Heps Hp e.
  assert (He : e = Euler (atan2 (sin r) (cos r)) p (atan2 (sin y) (cos y))).
  { subst e. unfold QuaternionToEuler, mavlink_quaternion_to_euler.
    rewrite <- (dcm_to_euler_of_euler_to_dcm r p y dcm_local) by lra.
    apply (dcm_to_euler_ext (A := RealArith)). intros i j Hi Hj.
    now apply euler_quaternion_dcm_entries. }
  rewrite He. cbn [roll pitch yaw].
  destruct (atan2_sin_cos_wrap r) as (kr & Hr & Hrb).
  destruct (atan2_sin_cos_wrap y) as (ky & Hy & Hyb).
  split; [reflexivity |].
  split; [now exists kr |]. split; [exact Hrb |].
  split; [now exists ky |]. split; [exact Hyb |].
  split; apply atan2_sin_cos.
Qed.

Lemma quaternion_euler_round_trip_witness :
  2.0e-3 <= 2.0e-3 /\
  - (PI / 2) + 2.0e-3 < 1 / 4 < PI / 2 - 2.0e-3 /\
  let e := QuaternionToEuler
             (EulerToQuaternion (1 / 2) (1 / 4) (-1) (quat 0 0 0 0))
             identity_dcm in
  roll e = 1 / 2 /\ pitch e = 1 / 4 /\ yaw e = -1.
Proof.
  pose proof PI2_1 as Hpi.
  assert (H1 : 2.0e-3 <= 2.0e-3) by lra.
  assert (H2 : - (PI / 2) + 2.0e-3 < 1 / 4 < PI / 2 - 2.0e-3) by lra.
  split; [exact H1 | split; [exact H2 |]].
  destruct (quaternion_euler_round_trip (1 / 2) (1 / 4) (-1) 2.0e-3
              (quat 0 0 0 0) identity_dcm H1 H2)
    as (Hp & _ & _ & _ & _ & Hr & Hy).
  cbv zeta. split; [apply Hr; lra | split; [exact Hp | apply Hy; lra]].
Defined.

End QuaternionEuler.

(** ** Matrix to quaternion after quaternion to matrix *)

Section QuaternionRoundTrip.

Lemma sqrt_four_sq (e c : R) : e = 2 * c * (2 * c) -> sqrt e = 2 * Rabs c.
Proof.
  intros ->. change (2 * c * (2 * c)) with (Rsqr (2 * c)).
  rewrite sqrt_Rsqr_abs, Rabs_mult, (Rabs_right 2) by lra. reflexivity.
Qed.

Lemma half_lit : 0.5 = / 2.
Proof. lra. Qed.

(** Finishes one component of the round trip: the pivot [c] is
    non-zero with known sign and the square root is [2 |c|]. *)
Ltac finish_component HS Habs :=
  rewrite ?HS, ?Habs, ?half_lit; field; lra.

(** The sign of the returned quaternion is the sign of its pivot
    component: [w] when the trace is positive, otherwise the component
    that goes with the largest diagonal entry. *)
Lemma dcm_quaternion_round_trip_signed
    (q q0 : Z -> R) (dcm0 : Z -> Z -> R) (log : list access) :
  quat_norm2 q = 1 ->
  exists (m' : mem (A := RealArith)) (sgn : R),
    MatrixToQuaternion (Mem (A := RealArith) (QuaternionToMatrix q dcm0) q0 log)
    = Some (tt, m') /\
    (sgn = 1 \/ sgn = -1) /\
    (forall n : Z, (0 <= n < 4)%Z -> quaternion m' n = sgn * q n) /\
    (1 / 2 < q.[0] -> sgn = 1).
Proof.
  unfold quat_norm2. intros Hunit.
  set (m := QuaternionToMatrix q dcm0).
  assert (E00 : m.[0, 0] = q.[0] * q.[0] + q.[1] * q.[1]
                           - q.[2] * q.[2] - q.[3] * q.[3]) by reflexivity.
  assert (E01 : m.[0, 1] = 2 * (q.[1] * q.[2] - q.[0] * q.[3]))
    by reflexivity.
  assert (E02 : m.[0, 2] = 2 * (q.[0] * q.[2] + q.[1] * q.[3]))
    by reflexivity.
  assert (E10 : m.[1, 0] = 2 * (q.[1] * q.[2] + q.[0] * q.[3]))
    by reflexivity.
  assert (E11 : m.[1, 1] = q.[0] * q.[0] - q.[1] * q.[1]
                           + q.[2] * q.[2] - q.[3] * q.[3]) by reflexivity.
  assert (E12 : m.[1, 2] = 2 * (q.[2] * q.[3] - q.[0] * q.[1]))
    by reflexivity.
  assert (E20 : m.[2, 0] = 2 * (q.[1] * q.[3] - q.[0] * q.[2]))
    by reflexivity.
  assert (E21 : m.[2, 1] = 2 * (q.[0] * q.[1] + q.[2] * q.[3]))
    by reflexivity.
  assert (E22 : m.[2, 2] = q.[0] * q.[0] - q.[1] * q.[1]
                           - q.[2] * q.[2] + q.[3] * q.[3]) by reflexivity.
  clearbody m.
  set (w := q.[0]) in *. set (x := q.[1]) in *.
  set (y := q.[2]) in *. set (z := q.[3]) in *.
  assert (Hn : w * w + x * x + y * y + z * z = 1) by lra.
  assert (Htr : trace_of (A := RealArith) m = 4 * (w * w) - 1).
  { unfold trace_of. real_arith. lra. }
  unfold MatrixToQuaternion.
  destruct (Rlt_dec 0 (trace_of (A := RealArith) m)) as [Hpos | Hneg].
  - (* positive trace: the pivot is w *)
    assert (HS : sqrt (4 * (w * w) - 1 + 1) = 2 * Rabs w).
    { apply sqrt_four_sq. lra. }
    assert (Hrun := dcm_to_quaternion_run_pos (A := RealArith)
                      (Mem (A := RealArith) m q0 log)).
    cbn [dcm quaternion accesses] in Hrun.
    specialize (Hrun (proj2 (Rltb_true _ _) Hpos)).
    assert (Hw : w <> 0) by (intros ->; lra).
    destruct (Rlt_dec 0 w) as [Hw0 | Hw0].
    + eexists; exists 1. split; [exact Hrun |].
      assert (Habs : Rabs w = w) by (apply Rabs_right; lra).
      split; [now left | split; [| reflexivity]].
      intros n Hn4. cbn [quaternion]. unfold quaternion_pos. rewrite Htr.
      case_sub4 n Hn4; real_arith;
        rewrite ?E01, ?E02, ?E10, ?E12, ?E20, ?E21;
        fold w x y z; finish_component HS Habs.
    + eexists; exists (-1). split; [exact Hrun |].
      assert (Habs : Rabs w = - w) by (apply Rabs_left; lra).
      split; [now right | split; [| intros H; nra]].
      intros n Hn4. cbn [quaternion]. unfold quaternion_pos. rewrite Htr.
      case_sub4 n Hn4; real_arith;
        rewrite ?E01, ?E02, ?E10, ?E12, ?E20, ?E21;
        fold w x y z; finish_component HS Habs.
  - (* non-positive trace: the pivot goes with the largest diagonal *)
    assert (Hrun := dcm_to_quaternion_run_nonpos (A := RealArith)
                      (Mem (A := RealArith) m q0 log)).
    cbn [dcm quaternion accesses] in Hrun.
    specialize (Hrun (proj2 (Rltb_false _ _) Hneg)).
    assert (Hw4 : 4 * (w * w) <= 1) by lra.
    destruct (diag_scan_first_max m) as (_ & Hmax & _).
    assert (H0 := Hmax 0%Z ltac:(lia)).
    assert (H1 := Hmax 1%Z ltac:(lia)).
    assert (H2 := Hmax 2%Z ltac:(lia)).
    clear Hmax.
    destruct (diag_scan_cases (A := RealArith) m) as [Hi | [Hi | Hi]];
      rewrite Hi in H0, H1, H2.
    + (* pivot x *)
      assert (Hx2 : 1 <= 4 * (x * x)) by lra.
      assert (Hx : x <> 0) by (intros Hx; rewrite Hx in Hx2; lra).
      assert (HS : sqrt (m.[0, 0] - m.[1, 1] - m.[2, 2] + 1) = 2 * Rabs x).
      { apply sqrt_four_sq. lra. }
      destruct (Rlt_dec 0 x) as [Hx0 | Hx0];
        [ assert (Habs : Rabs x = x) by (apply Rabs_right; lra);
          eexists; exists 1
        | assert (Habs : Rabs x = - x) by (apply Rabs_left; lra);
          eexists; exists (-1) ];
        (split; [exact Hrun |]);
        (split; [auto |]);
        (split; [| intros H; nra]);
        intros n Hn4; cbn [quaternion]; unfold quaternion_nonpos;
        rewrite Hi; eval_subscripts;
        case_sub4 n Hn4; real_arith;
        rewrite ?HS, ?E01, ?E02, ?E10, ?E12, ?E20, ?E21;
        fold w x y z; finish_component HS Habs.
    + (* pivot y *)
      assert (Hy2 : 1 <= 4 * (y * y)) by lra.
      assert (Hy : y <> 0) by (intros Hy; rewrite Hy in Hy2; lra).
      assert (HS : sqrt (m.[1, 1] - m.[2, 2] - m.[0, 0] + 1) = 2 * Rabs y).
      { apply sqrt_four_sq. lra. }
      destruct (Rlt_dec 0 y) as [Hy0 | Hy0];
        [ assert (Habs : Rabs y = y) by (apply Rabs_right; lra);
          eexists; exists 1
        | assert (Habs : Rabs y = - y) by (apply Rabs_left; lra);
          eexists; exists (-1) ];
        (split; [exact Hrun |]);
        (split; [auto |]);
        (split; [| intros H; nra]);
        intros n Hn4; cbn [quaternion]; unfold quaternion_nonpos;
        rewrite Hi; eval_subscripts;
        case_sub4 n Hn4; real_arith;
        rewrite ?HS, ?E01, ?E02, ?E10, ?E12, ?E20, ?E21;
        fold w x y z; finish_component HS Habs.
    + (* pivot z *)
      assert (Hz2 : 1 <= 4 * (z * z)) by lra.
      assert (Hz : z <> 0) by (intros Hz; rewrite Hz in Hz2; lra).
      assert (HS : sqrt (m.[2, 2] - m.[0, 0] - m.[1, 1] + 1) = 2 * Rabs z).
      { apply sqrt_four_sq. lra. }
      destruct (Rlt_dec 0 z) as [Hz0 | Hz0];
        [ assert (Habs : Rabs z = z) by (apply Rabs_right; lra);
          eexists; exists 1
        | assert (Habs : Rabs z = - z) by (apply Rabs_left; lra);
          eexists; exists (-1) ];
        (split; [exact Hrun |]);
        (split; [auto |]);
        (split; [| intros H; nra]);
        intros n Hn4; cbn [quaternion]; unfold quaternion_nonpos;
        rewrite Hi; eval_subscripts;
        case_sub4 n Hn4; real_arith;
        rewrite ?HS, ?E01, ?E02, ?E10, ?E12, ?E20, ?E21;
        fold w x y z; finish_component HS Habs.
Qed.

(** X7. For every unit quaternion [q], [MatrixToQuaternion] applied to
    [QuaternionToMatrix q] completes and returns [q] or [-q]: the
    rotation is recovered up to the sign ambiguity of quaternions. *)
Theorem dcm_quaternion_round_trip
    (q q0 : Z -> R) (dcm0 : Z -> Z -> R) (log : list access) :
  quat_norm2 q = 1 ->
  exists m' : mem (A := RealArith),
    MatrixToQuaternion (Mem (A := RealArith) (QuaternionToMatrix q dcm0) q0 log)
    = Some (tt, m') /\
    ((forall n : Z, (0 <= n < 4)%Z -> quaternion m' n = q n) \/
     (forall n : Z, (0 <= n < 4)%Z -> quaternion m' n = - q n)).
Proof.
  intros Hunit.
  destruct (dcm_quaternion_round_trip_signed q q0 dcm0 log Hunit)
    as (m' & sgn & Hrun & [-> | ->] & Hq & _);
    exists m'; (split; [exact Hrun |]); [left | right];
    intros n Hn; rewrite (Hq n Hn); generalize (q n); intros; lra.
Qed.

Lemma dcm_quaternion_round_trip_witness :
  quat_norm2 (quat 0 (-1) 0 0) = 1 /\
  exists m' : mem (A := RealArith),
    MatrixToQuaternion
      (Mem (A := RealArith) (QuaternionToMatrix (quat 0 (-1) 0 0) identity_dcm)
           (quat 0 0 0 0) [])
    = Some (tt, m') /\
    ((forall n : Z, (0 <= n < 4)%Z -> quaternion m' n = quat 0 (-1) 0 0 n) \/
     (forall n : Z, (0 <= n < 4)%Z -> quaternion m' n = - quat 0 (-1) 0 0 n)).
Proof.
  assert (H : quat_norm2 (quat 0 (-1) 0 0) = 1).
  { unfold quat_norm2. real_arith. lra. }
  split; [exact H |].
  exact (dcm_quaternion_round_trip (quat 0 (-1) 0 0) (quat 0 0 0 0)
           identity_dcm [] H).
Defined.

(** X8. For a unit quaternion with positive scalar part [w] and
    [2 w^2 >= 1] (a rotation by at most a quarter turn) the round trip
    is exact: [MatrixToQuaternion (QuaternionToMatrix q)] returns [q]
    itself.  The trace is then at least 1, far from the test
    [tr > 0]. *)
Theorem dcm_quaternion_round_trip_exact
    (q q0 : Z -> R) (dcm0 : Z -> Z -> R) (log : list access) :
  quat_norm2 q = 1 ->
  0 < q.[0] ->
  1 <= 2 * q.[0] ^ 2 ->
  exists m' : mem (A := RealArith),
    MatrixToQuaternion (Mem (A := RealArith) (QuaternionToMatrix q dcm0) q0 log)
    = Some (tt, m') /\
    1 <= trace_of (A := RealArith) (QuaternionToMatrix q dcm0) /\
    forall n : Z, (0 <= n < 4)%Z -> quaternion m' n = q n.
Proof.
  intros Hunit Hw0 Hw2.
  assert (Hw : 1 / 2 < q.[0]) by nra.
  destruct (dcm_quaternion_round_trip_signed q q0 dcm0 log Hunit)
    as (m' & sgn & Hrun & _ & Hq & Hs).
  exists m'. split; [exact Hrun |]. split.
  - unfold quat_norm2 in Hunit.
    unfold trace_of, QuaternionToMatrix, mavlink_quaternion_to_dcm.
    real_arith. nra.
  - intros n Hn. rewrite (Hq n Hn), (Hs Hw). apply Rmult_1_l.
Qed.

Lemma dcm_quaternion_round_trip_exact_witness :
  quat_norm2 (quat (4 / 5) 0 (3 / 5) 0) = 1 /\
  0 < (quat (4 / 5) 0 (3 / 5) 0).[0] /\
  1 <= 2 * (quat (4 / 5) 0 (3 / 5) 0).[0] ^ 2 /\
  exists m' : mem (A := RealArith),
    MatrixToQuaternion
      (Mem (A := RealArith)
           (QuaternionToMatrix (quat (4 / 5) 0 (3 / 5) 0) identity_dcm)
           (quat 0 0 0 0) [])
    = Some (tt, m') /\
    forall n : Z, (0 <= n < 4)%Z ->
      quaternion m' n = quat (4 / 5) 0 (3 / 5) 0 n.
Proof.
  assert (H : quat_norm2 (quat (4 / 5) 0 (3 / 5) 0) = 1).
  { unfold quat_norm2. real_arith. lra. }
  assert (Hw0 : 0 < (quat (4 / 5) 0 (3 / 5) 0).[0]).
  { real_arith. lra. }
  assert (Hw2 : 1 <= 2 * (quat (4 / 5) 0 (3 / 5) 0).[0] ^ 2).
  { real_arith. lra. }
  split; [exact H | split; [exact Hw0 | split; [exact Hw2 |]]].
  destruct (dcm_quaternion_round_trip_exact (quat (4 / 5) 0 (3 / 5) 0)
              (quat 0 0 0 0) identity_dcm [] H Hw0 Hw2)
    as (m' & Hrun & _ & Hq).
  exists m'. split; [exact Hrun | exact Hq].
Defined.

End QuaternionRoundTrip.

(** ** Ranges of the returned angles, and the two gimbal-lock attitudes *)

Section EulerAngles.

Lemma atan2_range (y x : R) : - PI < atan2 y x <= PI.
Proof.
  pose proof PI_RGT_0 as Hpi.
  destruct (Rtotal_order x 0) as [Hx | [Hx | Hx]].
  - destruct (Rle_dec 0 y) as [Hy | Hy].
    + rewrite atan2_neg_nonneg by assumption.
      pose proof (atan_bound (y / x)) as Hb.
      assert (Ha : atan (y / x) <= 0).
      { destruct Hy as [Hy | <-].
        - left. rewrite <- atan_0. apply atan_increasing.
          apply Rmult_pos_neg; [assumption |].
          now apply Rinv_neg.
        - right. unfold Rdiv. now rewrite Rmult_0_l, atan_0. }
      lra.
    + rewrite atan2_neg_neg by lra.
      pose proof (atan_bound (y / x)) as Hb.
      assert (Ha : 0 < atan (y / x)).
      { rewrite <- atan_0. apply atan_increasing.
        apply Rmult_neg_neg; [lra |]. now apply Rinv_neg. }
      lra.
  - subst x. rewrite atan2_zero.
    destruct (Rlt_dec 0 y); [lra |]. destruct (Rlt_dec y 0); lra.
  - rewrite atan2_pos by assumption.
    pose proof (atan_bound (y / x)) as Hb. lra.
Qed.

(** X9. For every matrix with [|dcm[2][0]| <= 1], where the arcsine is
    defined, [MatrixToEuler] returns a roll and a yaw in [[-PI, PI]]
    and a pitch in [[-PI/2, PI/2]], in all three arms.  (The lower end
    [-PI] is included: the C [atan2f] returns it for a negative zero
    first argument.) *)
Theorem dcm_to_euler_ranges (m : Z -> Z -> R) :
  -1 <= m.[2, 0] <= 1 ->
  let e := MatrixToEuler m in
  - PI <= roll e <= PI /\
  - (PI / 2) <= pitch e <= PI / 2 /\
  - PI <= yaw e <= PI.
Proof.
  intros _ e. subst e. unfold MatrixToEuler, mavlink_dcm_to_euler.
  pose proof PI_RGT_0 as Hpi.
  pose proof (asin_bound (- m.[2, 0])) as Hth.
  rewrite dcm_theta_exact.
  destruct (dcm_to_euler_branch (A := RealArith) m); real_arith;
    rewrite ?Rplus_0_r;
    repeat match goal with
      | |- context [atan2 ?y ?x] =>
          lazymatch goal with
          | _ : - PI < atan2 y x <= PI |- _ => fail
          | _ => pose proof (atan2_range y x)
          end
      end;
    lra.
Qed.

Lemma dcm_to_euler_ranges_witness :
  -1 <= pitch_up_dcm.[2, 0] <= 1 /\
  - PI <= roll (MatrixToEuler pitch_up_dcm) <= PI /\
  - (PI / 2) <= pitch (MatrixToEuler pitch_up_dcm) <= PI / 2 /\
  - PI <= yaw (MatrixToEuler pitch_up_dcm) <= PI.
Proof.
  assert (H : -1 <= pitch_up_dcm.[2, 0] <= 1) by (real_arith; lra).
  split; [exact H |].
  exact (dcm_to_euler_ranges pitch_up_dcm H).
Defined.

(** Entries of [EulerToMatrix] depend on the angles only through their
    sines and cosines, so they are periodic. *)
Lemma euler_to_dcm_periodic
    (r p y : R) (kr kp ky : Z) (dcm0 dcm0' : Z -> Z -> R) (i j : Z) :
  (0 <= i < 3)%Z -> (0 <= j < 3)%Z ->
  EulerToMatrix (r + 2 * IZR kr * PI) (p + 2 * IZR kp * PI)
                (y + 2 * IZR ky * PI) dcm0 i j =
  EulerToMatrix r p y dcm0' i j.
Proof.
  intros Hi Hj.
  destruct (sin_cos_period_Z r kr) as [Sr Cr].
  destruct (sin_cos_period_Z p kp) as [Sp Cp].
  destruct (sin_cos_period_Z y ky) as [Sy Cy].
  case_sub3 i Hi; case_sub3 j Hj;
    unfold EulerToMatrix, mavlink_euler_to_dcm; real_arith;
    rewrite ?Sr, ?Cr, ?Sp, ?Cp, ?Sy, ?Cy; reflexivity.
Qed.

(** X10. [EulerToMatrix] is periodic: adding whole turns to any of the
    three angles leaves every entry of the matrix unchanged. *)
Theorem euler_to_dcm_whole_turns
    (r p y : R) (kr kp ky : Z) (dcm0 dcm0' : Z -> Z -> R) :
  forall i j : Z, (0 <= i < 3)%Z -> (0 <= j < 3)%Z ->
    EulerToMatrix (r + 2 * IZR kr * PI) (p + 2 * IZR kp * PI)
                  (y + 2 * IZR ky * PI) dcm0 i j =
    EulerToMatrix r p y dcm0' i j.
Proof. intros i j. apply euler_to_dcm_periodic. Qed.

Lemma euler_to_dcm_whole_turns_witness :
  EulerToMatrix (1 + 2 * IZR 1 * PI) (2 + 2 * IZR (-3) * PI)
                (3 + 2 * IZR 0 * PI) identity_dcm 0 1 =
  EulerToMatrix 1 2 3 identity_dcm 0 1.
Proof.
  apply (euler_to_dcm_whole_turns 1 2 3 1 (-3) 0 identity_dcm identity_dcm
           0%Z 1%Z); lia.
Defined.

(** X11. Adding one whole turn to the roll, the pitch or the yaw negates
    the quaternion that [EulerToQuaternion] returns: out-of-range angles
    give the other quaternion of the same rotation. *)
Theorem euler_to_quaternion_whole_turn
    (r p y : R) (q0 q0' : Z -> R) :
  forall n : Z, (0 <= n < 4)%Z ->
    EulerToQuaternion (r + 2 * PI) p y q0 n = - EulerToQuaternion r p y q0' n /\
    EulerToQuaternion r (p + 2 * PI) y q0 n = - EulerToQuaternion r p y q0' n /\
    EulerToQuaternion r p (y + 2 * PI) q0 n = - EulerToQuaternion r p y q0' n.
Proof.
  intros n Hn.
  assert (Hh : forall t : R, (t + 2 * PI) / 2 = t / 2 + PI)
    by (intros t; field).
  case_sub4 n Hn;
    unfold EulerToQuaternion, mavlink_euler_to_quaternion; real_arith;
    rewrite !Hh, !neg_cos, !neg_sin; repeat split; ring.
Qed.

Lemma euler_to_quaternion_whole_turn_witness :
  EulerToQuaternion (1 + 2 * PI) 2 3 (quat 0 0 0 0) 0
  = - EulerToQuaternion 1 2 3 (quat 0 0 0 0) 0.
Proof.
  apply (euler_to_quaternion_whole_turn 1 2 3 (quat 0 0 0 0) (quat 0 0 0 0)
           0%Z). lia.
Defined.

(** X12. Gimbal lock at pitch [+PI/2]: [MatrixToEuler (EulerToMatrix r
    (PI/2) y)] returns roll 0, pitch [PI/2] and the yaw [y - r] brought
    into [(-PI, PI]]; these angles rebuild the same matrix, so nothing
    of the rotation is lost. *)
Theorem gimbal_lock_plus_round_trip (r y : R) (dcm0 dcm0' : Z -> Z -> R) :
  let e := MatrixToEuler (EulerToMatrix r (PI / 2) y dcm0) in
  roll e = 0 /\
  pitch e = PI / 2 /\
  (exists k : Z, yaw e = y - r + 2 * IZR k * PI) /\
  - PI < yaw e <= PI /\
  forall i j : Z, (0 <= i < 3)%Z -> (0 <= j < 3)%Z ->
    EulerToMatrix (roll e) (pitch e) (yaw e) dcm0' i j =
    EulerToMatrix r (PI / 2) y dcm0 i j.
Proof.
  intros e.
  assert (He : exists k : Z,
             e = Euler 0 (PI / 2) (y - r + 2 * IZR k * PI) /\
             - PI < y - r + 2 * IZR k * PI <= PI).
  { subst e. set (m := EulerToMatrix r (PI / 2) y dcm0).
    assert (E20 : m.[2, 0] = - sin (PI / 2)) by reflexivity.
    assert (E01 : m.[0, 1] = - cos r * sin y + sin r * sin (PI / 2) * cos y)
      by reflexivity.
    assert (E02 : m.[0, 2] = sin r * sin y + cos r * sin (PI / 2) * cos y)
      by reflexivity.
    assert (E11 : m.[1, 1] = cos r * cos y + sin r * sin (PI / 2) * sin y)
      by reflexivity.
    assert (E12 : m.[1, 2] = - sin r * cos y + cos r * sin (PI / 2) * sin y)
      by reflexivity.
    clearbody m. rewrite sin_PI2 in *.
    assert (Hth : asin (- m.[2, 0]) = PI / 2).
    { rewrite E20, Ropp_involutive. apply asin_1. }
    assert (Hb : dcm_to_euler_branch (A := RealArith) m = GimbalPlus).
    { apply branch_plus_iff. rewrite Hth.
      replace (PI / 2 - PI / 2) with 0 by lra. rewrite Rabs_R0. lra. }
    destruct (atan2_sin_cos_wrap (y - r)) as (k & Hk & Hkb).
    exists k. split; [| now rewrite <- Hk].
    unfold MatrixToEuler, mavlink_dcm_to_euler.
    rewrite Hb, dcm_theta_exact, Hth. real_arith.
    rewrite Rplus_0_r, <- Hk.
    rewrite <- (atan2_scale 2 (sin (y - r)) (cos (y - r))) by lra.
    rewrite E01, E02, E11, E12, sin_minus, cos_minus.
    do 2 f_equal; ring. }
  destruct He as (k & -> & Hkb). cbn [roll pitch yaw].
  split; [reflexivity | split; [reflexivity |]].
  split; [now exists k | split; [exact Hkb |]].
  intros i j Hi Hj.
  transitivity (EulerToMatrix 0 (PI / 2) (y - r) dcm0' i j).
  { rewrite <- (euler_to_dcm_periodic 0 (PI / 2) (y - r) 0 0 k
                  dcm0' dcm0' i j) by assumption.
    replace (0 + 2 * IZR 0 * PI) with 0 by ring.
    replace (PI / 2 + 2 * IZR 0 * PI) with (PI / 2) by ring.
    reflexivity. }
  clear Hkb.
  case_sub3 i Hi; case_sub3 j Hj;
    unfold EulerToMatrix, mavlink_euler_to_dcm; real_arith;
    rewrite ?sin_minus, ?cos_minus, ?sin_0, ?cos_0, ?sin_PI2, ?cos_PI2;
    ring.
Qed.

Lemma gimbal_lock_plus_round_trip_witness :
  roll (MatrixToEuler (EulerToMatrix 1 (PI / 2) 2 identity_dcm)) = 0 /\
  EulerToMatrix
    (roll (MatrixToEuler (EulerToMatrix 1 (PI / 2) 2 identity_dcm)))
    (pitch (MatrixToEuler (EulerToMatrix 1 (PI / 2) 2 identity_dcm)))
    (yaw (MatrixToEuler (EulerToMatrix 1 (PI / 2) 2 identity_dcm)))
    identity_dcm 0 1
  = EulerToMatrix 1 (PI / 2) 2 identity_dcm 0 1.
Proof.
  destruct (gimbal_lock_plus_round_trip 1 2 identity_dcm identity_dcm)
    as (Hr & _ & _ & _ & Hm).
  split; [exact Hr |]. apply (Hm 0%Z 1%Z); lia.
Defined.


(** X14. Away from gimbal lock the angles returned by [MatrixToEuler]
    rebuild the matrix they were read from: for a pitch at least [2e-3]
    (twice the gimbal-lock threshold, which leaves room for rounding)
    inside [(-PI/2, PI/2)], [EulerToMatrix] of
    [MatrixToEuler (EulerToMatrix r p y)] has the entries of
    [EulerToMatrix r p y], also when [r] or [y] lie outside
    [(-PI, PI]] and come back wrapped. *)
Theorem euler_dcm_euler_dcm (r p y : R) (dcm0 dcm0' : Z -> Z -> R) :
  - (PI / 2) + 2.0e-3 <= p <= PI / 2 - 2.0e-3 ->
  let e := MatrixToEuler (EulerToMatrix r p y dcm0) in
  forall i j : Z, (0 <= i < 3)%Z -> (0 <= j < 3)%Z ->
    EulerToMatrix (roll e) (pitch e) (yaw e) dcm0' i j =
    EulerToMatrix r p y dcm0 i j.
Proof.
  intros Hp e i j Hi Hj. subst e.
  rewrite dcm_to_euler_of_euler_to_dcm by lra. cbn [roll pitch yaw].
  destruct (atan2_sin_cos_wrap r) as (kr & -> & _).
  destruct (atan2_sin_cos_wrap y) as (ky & -> & _).
  rewrite <- (euler_to_dcm_periodic r p y kr 0 ky dcm0' dcm0 i j)
    by assumption.
  replace (p + 2 * IZR 0 * PI) with p by ring. reflexivity.
Qed.

Lemma euler_dcm_euler_dcm_witness :
  - (PI / 2) + 2.0e-3 <= 1 <= PI / 2 - 2.0e-3 /\
  EulerToMatrix
    (roll (MatrixToEuler (EulerToMatrix 7 1 (-9) identity_dcm)))
    (pitch (MatrixToEuler (EulerToMatrix 7 1 (-9) identity_dcm)))
    (yaw (MatrixToEuler (EulerToMatrix 7 1 (-9) identity_dcm)))
    identity_dcm 1 2
  = EulerToMatrix 7 1 (-9) identity_dcm 1 2.
Proof.
  assert (H : - (PI / 2) + 2.0e-3 <= 1 <= PI / 2 - 2.0e-3).
  { pose proof PI2_3_2 as Hpi. lra. }
  split; [exact H |].
  apply (euler_dcm_euler_dcm 7 1 (-9) identity_dcm identity_dcm H 1%Z 2%Z);
    lia.
Defined.

End EulerAngles.

(** ** What [mavlink_dcm_to_quaternion] reads *)

Section DcmToQuaternionReads.
Context {A : CArith}.

Local Open Scope Z_scope.

(** The four output cells are a function of the nine matrix entries. *)
Lemma dcm_to_quaternion_ext (m1 m2 : mem) :
  (forall i j : Z, 0 <= i < 3 -> 0 <= j < 3 -> dcm m1 i j = dcm m2 i j) ->
  exists m1' m2' : mem,
    mavlink_dcm_to_quaternion m1 = Some (tt, m1') /\
    mavlink_dcm_to_quaternion m2 = Some (tt, m2') /\
    forall n : Z, 0 <= n < 4 -> quaternion m1' n = quaternion m2' n.
Proof.
  intros H. destruct m1 as [d1 q1 l1], m2 as [d2 q2 l2]. cbn [dcm] in H.
  assert (Htr : trace_of d1 = trace_of d2).
  { unfold trace_of. rewrite !(H _ _) by lia. reflexivity. }
  assert (Hscan : diag_scan d1 = diag_scan d2).
  { unfold diag_scan, diag_scan1. rewrite !(H 0 0), !(H 1 1) by lia.
    destruct (d2 1 1 >? d2 0 0)%flt; rewrite !(H _ _) by lia; reflexivity. }
  destruct (trace_of d2 >? flit_0)%flt eqn:Hb.
  - exists (Mem d1 (quaternion_pos d1 q1) (l1 ++ log_pos)),
           (Mem d2 (quaternion_pos d2 q2) (l2 ++ log_pos)).
    split; [apply dcm_to_quaternion_run_pos; cbn [dcm]; now rewrite Htr |].
    split; [now apply dcm_to_quaternion_run_pos |].
    intros n Hn. cbn [quaternion]. unfold quaternion_pos. rewrite Htr.
    case_sub4 n Hn; unfold upd; cbn [Z.eqb Pos.eqb];
      rewrite ?(H _ _) by lia; reflexivity.
  - exists (Mem d1 (quaternion_nonpos d1 q1) (l1 ++ log_nonpos d1)),
           (Mem d2 (quaternion_nonpos d2 q2) (l2 ++ log_nonpos d2)).
    split; [apply dcm_to_quaternion_run_nonpos; cbn [dcm]; now rewrite Htr |].
    split; [now apply dcm_to_quaternion_run_nonpos |].
    intros n Hn. cbn [quaternion]. unfold quaternion_nonpos. rewrite Hscan.
    destruct (diag_scan_cases d2) as [-> | [-> | ->]];
      eval_subscripts;
      case_sub4 n Hn; unfold upd; cbn [Z.eqb Pos.eqb];
      rewrite ?(H _ _) by lia; reflexivity.
Qed.

(** X15. [mavlink_dcm_to_quaternion] computes the four cells
    [quaternion[0..3]] from the nine entries of the matrix alone: two
    runs on memories whose matrices agree inside the 3x3 extent both
    complete and leave the same four values, whatever the quaternion
    array held before (every cell is overwritten, in either arm). *)
Theorem dcm_to_quaternion_reads (m1 m2 : mem) :
  (forall i j : Z, 0 <= i < 3 -> 0 <= j < 3 -> dcm m1 i j = dcm m2 i j) ->
  exists m1' m2' : mem,
    mavlink_dcm_to_quaternion m1 = Some (tt, m1') /\
    mavlink_dcm_to_quaternion m2 = Some (tt, m2') /\
    forall n : Z, 0 <= n < 4 -> quaternion m1' n = quaternion m2' n.
Proof. apply dcm_to_quaternion_ext. Qed.

(** X16. The three routines that only store overwrite their whole
    output: inside the extent of the output array the result is the
    same whatever the array held before, and
    [mavlink_euler_to_quaternion] leaves alone what lies outside
    [quaternion[0..3]]. *)
Theorem store_routines_overwrite
    (q qa qb : Z -> float) (da db : Z -> Z -> float) (r p y : float) :
  (forall i j : Z, 0 <= i < 3 -> 0 <= j < 3 ->
     mavlink_quaternion_to_dcm q da i j = mavlink_quaternion_to_dcm q db i j) /\
  (forall i j : Z, 0 <= i < 3 -> 0 <= j < 3 ->
     mavlink_euler_to_dcm r p y da i j = mavlink_euler_to_dcm r p y db i j) /\
  (forall n : Z, 0 <= n < 4 ->
     mavlink_euler_to_quaternion r p y qa n
     = mavlink_euler_to_quaternion r p y qb n) /\
  (forall n : Z, in_quaternion n = false ->
     mavlink_euler_to_quaternion r p y qa n = qa n).
Proof.
  split; [| split; [| split]].
  - intros i j Hi Hj. now apply quaternion_to_dcm_ext.
  - intros i j Hi Hj. unfold mavlink_euler_to_dcm.
    case_sub3 i Hi; case_sub3 j Hj; reflexivity.
  - intros n Hn. unfold mavlink_euler_to_quaternion.
    case_sub4 n Hn; reflexivity.
  - intros n Hn. unfold mavlink_euler_to_quaternion, upd.
    destruct (Z.eqb_spec n 3), (Z.eqb_spec n 2), (Z.eqb_spec n 1),
      (Z.eqb_spec n 0); subst; try discriminate; reflexivity.
Qed.

End DcmToQuaternionReads.

Lemma dcm_to_quaternion_reads_witness :
  (forall i j : Z, (0 <= i < 3)%Z -> (0 <= j < 3)%Z ->
     dcm half_turn_mem i j
     = dcm (Mem (A := RealArith) half_turn_x_dcm (quat 5 6 7 8)
                [StoreQuaternion 2]) i j) /\
  exists m1' m2' : mem (A := RealArith),
    mavlink_dcm_to_quaternion half_turn_mem = Some (tt, m1') /\
    mavlink_dcm_to_quaternion
      (Mem (A := RealArith) half_turn_x_dcm (quat 5 6 7 8)
           [StoreQuaternion 2]) = Some (tt, m2') /\
    forall n : Z, (0 <= n < 4)%Z -> quaternion m1' n = quaternion m2' n.
Proof.
  assert (H : forall i j : Z, (0 <= i < 3)%Z -> (0 <= j < 3)%Z ->
     dcm half_turn_mem i j
     = dcm (Mem (A := RealArith) half_turn_x_dcm (quat 5 6 7 8)
                [StoreQuaternion 2]) i j).
  { intros i j _ _. reflexivity. }
  split; [exact H |].
  exact (dcm_to_quaternion_reads half_turn_mem _ H).
Defined.

Lemma store_routines_overwrite_witness :
  mavlink_quaternion_to_dcm (A := RealArith) (quat 1 2 3 4) identity_dcm 0 1
  = mavlink_quaternion_to_dcm (A := RealArith) (quat 1 2 3 4)
      half_turn_x_dcm 0 1 /\
  mavlink_euler_to_quaternion (A := RealArith) 1 2 3 (quat 5 6 7 8) 9
  = quat 5 6 7 8 9.
Proof.
  destruct (store_routines_overwrite (A := RealArith) (quat 1 2 3 4)
              (quat 5 6 7 8) (quat 0 0 0 0) identity_dcm half_turn_x_dcm
              1 2 3) as (H1 & _ & _ & H4).
  split.
  - apply (H1 0%Z 1%Z); lia.
  - apply (H4 9%Z). reflexivity.
Defined.

(** ** Euler angles to matrix to quaternion *)

Section Triangle.

Lemma euler_quaternion_unit (r p y : R) (q0 : Z -> R) :
  quat_norm2 (EulerToQuaternion r p y q0) = 1.
Proof.
  unfold quat_norm2, EulerToQuaternion, mavlink_euler_to_quaternion.
  real_arith.
  pose proof (sin_cos_sqr (r / 2)) as H1.
  pose proof (sin_cos_sqr (p / 2)) as H2.
  pose proof (sin_cos_sqr (y / 2)) as H3.
  generalize dependent (cos (r / 2)); generalize dependent (sin (r / 2)).
  generalize dependent (cos (p / 2)); generalize dependent (sin (p / 2)).
  generalize dependent (cos (y / 2)); generalize dependent (sin (y / 2)).
  intros s3 c3 H3 s2 c2 H2 s1 c1 H1.
  transitivity ((s1 * s1 + c1 * c1) * (s2 * s2 + c2 * c2)
                * (s3 * s3 + c3 * c3)); [ring |].
  rewrite H1, H2, H3. ring.
Qed.

(** X17. The three conversions agree around the triangle: for all
    angles, [MatrixToQuaternion] applied to [EulerToMatrix r p y]
    completes and returns the quaternion of [EulerToQuaternion r p y]
    or its negative. *)
Theorem euler_dcm_quaternion_triangle
    (r p y : R) (q0 q1 : Z -> R) (dcm0 : Z -> Z -> R) (log : list access) :
  exists m' : mem (A := RealArith),
    MatrixToQuaternion (Mem (A := RealArith) (EulerToMatrix r p y dcm0) q1 log)
    = Some (tt, m') /\
    ((forall n : Z, (0 <= n < 4)%Z ->
        quaternion m' n = EulerToQuaternion r p y q0 n) \/
     (forall n : Z, (0 <= n < 4)%Z ->
        quaternion m' n = - EulerToQuaternion r p y q0 n)).
Proof.
  set (q := EulerToQuaternion r p y q0).
  destruct (dcm_quaternion_round_trip_signed q q1 dcm0 log
              (euler_quaternion_unit r p y q0))
    as (m2 & sgn & Hrun2 & Hsgn & Hq & _).
  destruct (dcm_to_quaternion_ext (A := RealArith)
              (Mem (A := RealArith) (EulerToMatrix r p y dcm0) q1 log)
              (Mem (A := RealArith) (QuaternionToMatrix q dcm0) q1 log))
    as (m1' & m2' & Hrun1 & Hrun2' & Heq).
  { intros i j Hi Hj. cbn [dcm]. symmetry.
    now apply euler_quaternion_dcm_entries. }
  unfold MatrixToQuaternion in *. rewrite Hrun2 in Hrun2'.
  injection Hrun2' as <-.
  exists m1'. split; [exact Hrun1 |].
  destruct Hsgn as [-> | ->]; [left | right];
    intros n Hn; rewrite (Heq n Hn), (Hq n Hn);
    generalize (q n); intros; lra.
Qed.

Lemma euler_dcm_quaternion_triangle_witness :
  exists m' : mem (A := RealArith),
    MatrixToQuaternion
      (Mem (A := RealArith) (EulerToMatrix 1 2 3 identity_dcm)
           (quat 0 0 0 0) [])
    = Some (tt, m') /\
    (quaternion m' 0%Z = EulerToQuaternion 1 2 3 (quat 0 0 0 0) 0%Z \/
     quaternion m' 0%Z = - EulerToQuaternion 1 2 3 (quat 0 0 0 0) 0%Z).
Proof.
  destruct (euler_dcm_quaternion_triangle 1 2 3 (quat 0 0 0 0) (quat 0 0 0 0)
              identity_dcm []) as (m' & Hrun & [H | H]);
    exists m'; (split; [exact Hrun |]); [left | right]; apply H; lia.
Defined.

End Triangle.

(** * The two-array model as the separated case of one address space *)

Section Separated.
Context {A : CArith}.
Variables pd pq : Z.
Hypothesis Hapart : blocks_apart pd pq.

Local Open Scope Z_scope.

Lemma sim_ret {X : Type} (x : X) : simulates pd pq (fret x) (ret x).
Proof. intros h m Hhm. cbn. auto. Qed.

Lemma sim_bind {X Y : Type} (cf : FM X) (cm : M X)
    (kf : X -> FM Y) (km : X -> M Y) :
  simulates pd pq cf cm ->
  (forall x, simulates pd pq (kf x) (km x)) ->
  simulates pd pq (fbind cf kf) (bind cm km).
Proof.
  intros Hc Hk h m Hhm. unfold fbind, bind.
  specialize (Hc h m Hhm).
  destruct (cf h) as [[x h'] |], (cm m) as [[x' m'] |];
    try contradiction; [| exact I].
  destruct Hc as [<- Hhm']. now apply Hk.
Qed.

Lemma sim_load (i j : Z) :
  simulates pd pq (load_dcm_at pd i j) (load_dcm i j).
Proof.
  intros h m Hhm. unfold load_dcm_at, load_dcm.
  destruct (in_dcm i j) eqn:Hij; [| exact I].
  destruct Hhm as [Hd Hq]. unfold in_dcm in Hij.
  split; [apply Hd; lia |].
  split; [exact Hd | exact Hq].
Qed.

Lemma sim_store (n : Z) (v : float) :
  simulates pd pq (store_quaternion_at pq n v) (store_quaternion n v).
Proof.
  intros h m Hhm. unfold store_quaternion_at, store_quaternion.
  destruct (in_quaternion n) eqn:Hn; [| exact I].
  destruct Hhm as [Hd Hq]. unfold in_quaternion in Hn.
  split; [reflexivity |]. split; cbn [dcm quaternion].
  - intros i j Hi Hj. unfold upd.
    destruct (Z.eqb_spec (dcm_cell pd i j) (quaternion_cell pq n)) as [E | _];
      [| now apply Hd].
    exfalso. unfold dcm_cell, quaternion_cell, blocks_apart in *. lia.
  - intros n' Hn'. unfold upd, quaternion_cell.
    destruct (Z.eqb_spec (pq + n') (pq + n)) as [E | E],
             (Z.eqb_spec n' n) as [E' | E']; try lia; [reflexivity |].
    now apply Hq.
Qed.

Lemma sim_scan_body (i dcm_i : Z) :
  simulates pd pq (max_diag_body_at pd i dcm_i) (max_diag_body i dcm_i).
Proof.
  unfold max_diag_body_at, max_diag_body.
  apply sim_bind; [apply sim_load | intros x].
  apply sim_bind; [apply sim_load | intros y].
  apply sim_ret.
Qed.

(** The two loops stay in step, by induction on the iteration count. *)
Lemma sim_for_loop (n : nat) (lo dcm_i : Z) :
  simulates pd pq (ffor_loop n lo (max_diag_body_at pd) dcm_i)
                  (for_loop n lo max_diag_body dcm_i).
Proof.
  revert lo dcm_i. induction n as [| n IH]; intros lo dcm_i.
  - apply sim_ret.
  - cbn [ffor_loop for_loop].
    apply sim_bind; [apply sim_scan_body | intros r; apply IH].
Qed.

Ltac sim_step :=
  first
    [ apply sim_store
    | apply sim_bind; [first [apply sim_load | apply sim_store] | intros ?] ].

Lemma sim_dcm_to_quaternion :
  simulates pd pq (mavlink_dcm_to_quaternion_at pd pq)
                  mavlink_dcm_to_quaternion.
Proof.
  unfold mavlink_dcm_to_quaternion_at, mavlink_dcm_to_quaternion.
  do 3 sim_step.
  match goal with |- context [if ?c then _ else _] => destruct c end.
  - repeat sim_step.
  - apply sim_bind; [apply sim_for_loop | intros i].
    repeat sim_step.
Qed.

(** X18. When the quaternion array does not overlap the matrix, the run
    over one address space and the run over two separate arrays agree,
    for every arithmetic: started on the same nine matrix entries both
    complete, the four cells [quaternion[0..3]] hold the values the
    two-array run computes, and the matrix still holds its entries. *)
Theorem dcm_to_quaternion_separated (h : heap) (m : mem) :
  (forall i j : Z, 0 <= i < 3 -> 0 <= j < 3 ->
     h (dcm_cell pd i j) = dcm m i j) ->
  exists (h' : heap) (m' : mem),
    mavlink_dcm_to_quaternion_at pd pq h = Some (tt, h') /\
    mavlink_dcm_to_quaternion m = Some (tt, m') /\
    (forall n : Z, 0 <= n < 4 ->
       h' (quaternion_cell pq n) = quaternion m' n) /\
    (forall i j : Z, 0 <= i < 3 -> 0 <= j < 3 ->
       h' (dcm_cell pd i j) = dcm m i j).
Proof.
  intros Hd.
  set (m0 := Mem (dcm m) (fun n => h (quaternion_cell pq n)) (accesses m)).
  assert (H0 : holds_arrays pd pq h m0).
  { split; [exact Hd | intros n _; reflexivity]. }
  pose proof (sim_dcm_to_quaternion h m0 H0) as Hsim.
  destruct (dcm_to_quaternion_ext m0 m) as (m0' & m' & Hrun0 & Hrun & Heq).
  { intros i j _ _. reflexivity. }
  rewrite Hrun0 in Hsim.
  destruct (mavlink_dcm_to_quaternion_at pd pq h) as [[[] h'] |];
    [| contradiction].
  destruct Hsim as [_ [Hd' Hq']].
  destruct (dcm_to_quaternion_run m0) as (q0' & l0 & Hrun0' & _ & _).
  rewrite Hrun0 in Hrun0'. injection Hrun0' as ->.
  exists h', m'. split; [reflexivity | split; [exact Hrun |]].
  split.
  - intros n Hn. rewrite <- (Heq n Hn). now apply Hq'.
  - intros i j Hi Hj. now rewrite (Hd' i j Hi Hj).
Qed.

End Separated.

Lemma dcm_to_quaternion_separated_witness :
  blocks_apart 0 9 /\
  (forall i j : Z, (0 <= i < 3)%Z -> (0 <= j < 3)%Z ->
     shared_buf (dcm_cell 0 i j) = dcm half_turn_mem i j) /\
  exists (h' : heap (A := RealArith)) (m' : mem (A := RealArith)),
    mavlink_dcm_to_quaternion_at (A := RealArith) 0 9 shared_buf
    = Some (tt, h') /\
    mavlink_dcm_to_quaternion half_turn_mem = Some (tt, m') /\
    h' (quaternion_cell 9 1) = quaternion m' 1%Z.
Proof.
  assert (H : blocks_apart 0 9) by (unfold blocks_apart; lia).
  assert (Hd : forall i j : Z, (0 <= i < 3)%Z -> (0 <= j < 3)%Z ->
     shared_buf (dcm_cell 0 i j) = dcm half_turn_mem i j).
  { intros i j Hi Hj. case_sub3 i Hi; case_sub3 j Hj; reflexivity. }
  split; [exact H | split; [exact Hd |]].
  destruct (dcm_to_quaternion_separated (A := RealArith) 0 9 H
              shared_buf half_turn_mem Hd) as (h' & m' & R1 & R2 & Hq & _).
  exists h', m'. split; [exact R1 | split; [exact R2 |]].
  apply Hq. lia.
Defined.
